(** * Bulk-synchronous miniapp driver and cable-cell construction

    A shallow embedding of [miniapp/miniapp.cpp] (the simulation driver
    [model::run], [model::init_communicator] and the network builder
    [all_to_all_model]) and of [arbor/cable_cell.cpp]
    ([cable_cell::add_cable]), with the properties the specification
    states about them.

    Conventions.
    - A C++ [double] is a value of a type with the three operations the
      driver uses ([0.], [+], [<]); the class [TimeOps] has two instances,
      IEEE binary64 (Rocq's primitive floats) and exact rationals [Q].
      The code runs on the first; [Binary64] gives the rational value of
      a finite binary64 number, to state what the loop computes.
    - Collaborators whose code is outside these files (cell groups, the
      communicator) are opaque: the driver is described by the
      sequence of calls it makes on them.
    - [while] loops take a fuel argument and return [None] when it runs
      out. *)

From Stdlib Require Import ZArith NArith QArith Qround Floats String Lia Lqa.
From stdpp Require Import base list sorting.

Set Default Proof Using "Type".

(* ================================================================== *)
(** * Time arithmetic *)

Class TimeOps (T : Type) := {
  t_zero : T;
  t_add : T -> T -> T;
  t_ltb : T -> T -> bool
}.

(** [std::min(a, b)] is [(b < a) ? b : a]. *)
Definition std_min {T} `{TimeOps T} (a b : T) : T :=
  if t_ltb b a then b else a.

Definition Qltb (a b : Q) : bool := negb (Qle_bool b a).

#[export] Instance Q_time : TimeOps Q :=
  {| t_zero := 0%Q; t_add := Qplus; t_ltb := Qltb |}.

#[export] Instance binary64_time : TimeOps float :=
  {| t_zero := 0%float; t_add := PrimFloat.add; t_ltb := PrimFloat.ltb |}.

(* ================================================================== *)
(** * The simulation driver: [model::run] *)

Module Driver.

(** The calls [model::run] makes on its collaborators.  [group] is the
    index [i] into [cell_groups]. *)
Inductive call (T : Type) : Type :=
| enqueue_events (group : nat)
    (* cell_groups[i].enqueue_events(communicator.queue(i)) *)
| advance (group : nat) (tend dt : T)
    (* cell_groups[i].advance(tend, dt) *)
| add_spikes (group : nat)
    (* communicator.add_spikes(cell_groups[i].spikes()) *)
| clear_spikes (group : nat)
    (* cell_groups[i].clear_spikes() *)
| exchange.
    (* communicator.exchange() *)

Arguments enqueue_events {T} group.
Arguments advance {T} group tend dt.
Arguments add_spikes {T} group.
Arguments clear_spikes {T} group.
Arguments exchange {T}.

(** The cell group a call works on; [exchange] works on none. *)
Definition group_of {T} (c : call T) : option nat :=
  match c with
  | enqueue_events i | advance i _ _ | add_spikes i | clear_spikes i => Some i
  | exchange => None
  end.

Definition on_group {T} (i : nat) (c : call T) : bool :=
  match group_of c with
  | Some j => Nat.eqb i j
  | None => false
  end.

(** Projection of a trace on the calls of group [i]. *)
Fixpoint calls_of_group {T} (i : nat) (tr : list (call T)) : list (call T) :=
  match tr with
  | [] => []
  | c :: tr' =>
      if on_group i c then c :: calls_of_group i tr' else calls_of_group i tr'
  end.

(** ** [parallel_for::apply(first, last, f)]

    Every task [f i] is a straight-line sequence of calls.  The threading
    back end decides how the tasks overlap: a schedule is any interleaving
    of the task sequences that keeps each task's own order. *)
Inductive interleaving {A} : list (list A) -> list A -> Prop :=
| interleaving_done tasks :
    Forall (fun t => t = []) tasks -> interleaving tasks []
| interleaving_step tasks k x rest tr :
    tasks !! k = Some (x :: rest) ->
    interleaving (<[k := rest]> tasks) tr ->
    interleaving tasks (x :: tr).

Definition parallel_for_tasks {A} (first last : nat) (f : nat -> list A)
  : list (list A) :=
  f <$> seq first (last - first).

(** The serial back end runs the tasks one after the other. *)
Definition parallel_for {A} (first last : nat) (f : nat -> list A) : list A :=
  concat (parallel_for_tasks first last f).

Section Run.
Context {T : Type} `{TimeOps T}.

(** The body of the lambda passed to [parallel_for::apply]. *)
Definition group_task (tend dt : T) (i : nat) : list (call T) :=
  [ enqueue_events i; advance i tend dt; add_spikes i; clear_spikes i ].

(** One iteration of the [while] loop as a relation on call sequences:
    some schedule of the group tasks, then [exchange].  [apply] is a
    fork-join: it returns when every task has finished. *)
Definition epoch_schedule (num_groups : nat) (tend dt : T)
    (tr : list (call T)) : Prop :=
  exists par,
    interleaving (parallel_for_tasks 0 num_groups (group_task tend dt)) par
    /\ tr = par ++ [exchange].

(** The same iteration under the serial schedule. *)
Definition epoch_calls (num_groups : nat) (dt tend : T) : list (call T) :=
  parallel_for 0 num_groups (group_task tend dt) ++ [exchange].

(** [while (t<tfinal) { ...; t += delta; }] *)
Fixpoint run_loop (fuel : nat) (num_groups : nat) (tfinal dt delta : T)
    (t : T) (tr : list (call T)) : option (T * list (call T)) :=
  if t_ltb t tfinal then
    match fuel with
    | O => None
    | S fuel' =>
        let tr' :=
          tr ++ epoch_calls num_groups dt (std_min (t_add t delta) tfinal) in
        run_loop fuel' num_groups tfinal dt delta (t_add t delta) tr'
    end
  else Some (t, tr).

(** [model::run(tfinal, dt)]; [min_delay] is the value of
    [double(communicator.min_delay())].  The result is the final value
    of the local [t] and the calls made. *)
Definition run (fuel : nat) (num_groups : nat) (min_delay tfinal dt : T)
  : option (T * list (call T)) :=
  let t := t_zero in
  let delta := std_min min_delay tfinal in
  run_loop fuel num_groups tfinal dt delta t [].

(** The value of [t] after [j] more executions of [t += delta]. *)
Fixpoint t_after (delta : T) (j : nat) (t : T) : T :=
  match j with
  | O => t
  | S j' => t_after delta j' (t_add t delta)
  end.

(** The value of [t] at the start of iteration [j] of [run]. *)
Definition t_at (delta : T) (j : nat) : T := t_after delta j t_zero.

(** The end time the groups are advanced to in iteration [j]. *)
Definition epoch_end (tfinal delta : T) (j : nat) : T :=
  std_min (t_add (t_at delta j) delta) tfinal.

End Run.

(** The final value of [t] of a run. *)
Definition final_time {T} (r : option (T * list (call T))) : option T :=
  fst <$> r.

(** Lengths of the epochs that end at [ends], the first starting at 0. *)
Definition epoch_lengths (ends : list Q) : list Q :=
  zip_with Qminus ends (0%Q :: ends).

(** A schedule of two groups in which the tasks overlap. *)
Definition overlapped_tasks : list (call Q) :=
  [ enqueue_events 1; enqueue_events 0; advance 0 5%Q (1 # 40)%Q;
    advance 1 5%Q (1 # 40)%Q; add_spikes 1; add_spikes 0; clear_spikes 0;
    clear_spikes 1 ].

Definition overlapped_epoch : list (call Q) := overlapped_tasks ++ [exchange].

Ltac next_call k :=
  eapply (interleaving_step _ k); [reflexivity|]; cbn.

End Driver.

(* ================================================================== *)
(** * Results of fallible operations *)

Inductive result (E A : Type) : Type :=
| Ok (a : A)
| Err (e : E).

Arguments Ok {E A} a.
Arguments Err {E A} e.

(** Sum of a sequence of counts. *)
Definition sum_counts (c : list N) : N := foldr N.add 0%N c.

(* ================================================================== *)
(** * Index/Domain Mapper *)

Module Algorithms.

(** Modelled from the spec: [mc::algorithms::make_index], called by
    [model::init_communicator], is declared in a header that is not part
    of the sources at hand.  The specification gives its contract: from one
    count per local unit it produces offsets of length [count+1], where
    entry [k] is the sum of all counts before unit [k] and the final entry
    is the total. *)
Definition make_index (counts : list N) : list N :=
  (fun k => sum_counts (take k counts)) <$> seq 0 (length counts + 1).

End Algorithms.

(* ================================================================== *)
(** * Communicator *)

Module Communicator.

(** [{source, destination, weight, delay}], the aggregate passed to
    [add_connection] in [all_to_all_model]. *)
Record connection : Type := {
  source : N;
  destination : N;
  weight : Q;
  delay : Q
}.

(** Modelled from the spec: the error kinds of the core. *)
Inductive error : Type :=
| AddressingError
| ConnectivityError
| IntegratorError
| UsageError.

(** Modelled from the spec: the communicator class is declared in
    [communication/communicator.hpp], which is not part of the sources
    at hand.  The state kept here is what the specification's contracts of
    [add_connection], [construct], [min_delay] and the group addressing
    functions speak about:
    - [domain_id], the index of the owning domain;
    - [group_counts], the number of cell groups of every domain in domain
      order (global ids are dense and assigned in domain order);
    - [connections], the candidate connections in insertion order, sorted
      by source once constructed;
    - [constructed], whether [construct()] has been called. *)
Record communicator : Type := {
  domain_id : nat;
  group_counts : list N;
  connections : list connection;
  constructed : bool
}.

(** Modelled from the spec: the global base offset of a domain is the sum
    of the totals of all domains with lower domain id. *)
Definition group_gid_first (c : communicator) (domain : nat) : N :=
  sum_counts (take domain (group_counts c)).

(** Modelled from the spec: the base offset is added to the local index. *)
Definition group_gid_from_group_lid (c : communicator) (lid : N) : N :=
  (group_gid_first c (domain_id c) + lid)%N.

(** Modelled from the spec: a group is local when its global id lies in
    the owning domain's range. *)
Definition is_local_group (c : communicator) (gid : N) : bool :=
  (group_gid_first c (domain_id c) <=? gid)%N
  && (gid <? group_gid_first c (S (domain_id c)))%N.

(** Modelled from the spec: the inverse of [group_gid_from_group_lid]. *)
Definition group_lid (c : communicator) (gid : N) : N :=
  (gid - group_gid_first c (domain_id c))%N.

(** Modelled from the spec: the number of cell groups the domain owns,
    its entry in the per-domain totals. *)
Definition num_local_groups (c : communicator) : N :=
  default 0%N (group_counts c !! domain_id c).

(** Modelled from the spec: [add_connection] appends a candidate
    connection before [construct()]; after it, the call is a usage error. *)
Definition add_connection (c : communicator) (con : connection)
  : result error communicator :=
  if constructed c then Err UsageError
  else Ok {| domain_id := domain_id c;
             group_counts := group_counts c;
             connections := connections c ++ [con];
             constructed := false |}.

Definition source_le (a b : connection) : Prop := (source a <= source b)%N.

#[export] Instance source_le_dec (a b : connection) : Decision (source_le a b).
Proof. unfold source_le. apply N.le_dec. Defined.

(** Modelled from the spec: [construct()] validates every delay to be
    non-negative, sorts the connections by source, and is a usage error
    when called a second time. *)
Definition construct (c : communicator) : result error communicator :=
  if constructed c then Err UsageError
  else if forallb (fun con => Qle_bool 0 (delay con)) (connections c)
  then Ok {| domain_id := domain_id c;
             group_counts := group_counts c;
             connections := merge_sort source_le (connections c);
             constructed := true |}
  else Err ConnectivityError.

(** Smallest element of a sequence of delays, [None] for the empty one. *)
Fixpoint min_of (l : list Q) : option Q :=
  match l with
  | [] => None
  | d :: l' =>
      match min_of l' with
      | None => Some d
      | Some m => Some (std_min d m)
      end
  end.

(** Modelled from the spec: the local minimum, over the domain's own
    connections, that the domain contributes to the reduction. *)
Definition local_min_delay (c : communicator) : option Q :=
  min_of (delay <$> connections c).

(** Modelled from the spec: the collective [min(value)] of the global
    policy, a network-wide minimum of the values the domains contribute.
    A domain without connections contributes nothing. *)
Definition global_policy_min (contributions : list (option Q)) : option Q :=
  min_of (omap id contributions).

(** Modelled from the spec: [min_delay()] is the collective reduction of
    the domains' local minima.  [world] lists the communicators of all
    domains by domain id; every domain receives the same value. *)
Definition min_delay (world : list communicator) : option Q :=
  global_policy_min (local_min_delay <$> world).

(** ** A two-domain example

    Domain 0 owns two groups and has connections of delays 5 and 3,
    domain 1 owns one group and has one connection of delay 7.  The
    [_added] records are the communicators before [construct()]. *)
Definition domain0_added : communicator :=
  {| domain_id := 0; group_counts := [2; 1]%N;
     connections :=
       [ {| source := 2; destination := 0; weight := 1; delay := 5 |};
         {| source := 1; destination := 1; weight := 1; delay := 3 |} ];
     constructed := false |}.

Definition domain1_added : communicator :=
  {| domain_id := 1; group_counts := [2; 1]%N;
     connections :=
       [ {| source := 0; destination := 2; weight := 1; delay := 7 |} ];
     constructed := false |}.

Definition domain0 : communicator :=
  {| domain_id := 0; group_counts := [2; 1]%N;
     connections :=
       [ {| source := 1; destination := 1; weight := 1; delay := 3 |};
         {| source := 2; destination := 0; weight := 1; delay := 5 |} ];
     constructed := true |}.

Definition domain1 : communicator :=
  {| domain_id := 1; group_counts := [2; 1]%N;
     connections :=
       [ {| source := 0; destination := 2; weight := 1; delay := 7 |} ];
     constructed := true |}.

Definition example_added : list communicator := [domain0_added; domain1_added].
Definition example_world : list communicator := [domain0; domain1].

End Communicator.

(* ================================================================== *)
(** * The miniapp: [model::init_communicator] and [all_to_all_model] *)

Module Miniapp.
Import Communicator.

(** What the miniapp reads of a cell group when it sets up the
    communicator: [cell().synapses()->size()] and [spike_sources().size()]. *)
Record cell_group : Type := {
  num_synapses : N;
  num_spike_sources : N
}.

Record model : Type := {
  cell_groups : list cell_group;
  source_map : list N;
  target_map : list N
}.

Definition num_groups (m : model) : nat := length (cell_groups m).

(** [model::init_communicator]: the two counting loops and the two calls
    of [make_index].  The communicator object it also creates from
    [num_groups()] and [target_counts] is not part of this record. *)
Definition init_communicator (m : model) : model :=
  let target_counts := num_synapses <$> cell_groups m in
  let source_counts := num_spike_sources <$> cell_groups m in
  {| cell_groups := cell_groups m;
     source_map := Algorithms.make_index source_counts;
     target_map := Algorithms.make_index target_counts |}.

(** [namespace parameters::synapses]. *)
Definition synapse_delay : Q := 20.
Definition weight_per_cell : Q := 3 # 10.

(** The command-line options [all_to_all_model] reads. *)
Record cl_options : Type := {
  cells : N;
  synapses_per_cell : N;
  all_to_all : bool
}.

(** The local cell count of a domain, lines 287-292 of [all_to_all_model]:
    [ncell_global / num_domains], one more when
    [domain_id < remainder].  For [num_domains > 0] all intermediate
    values lie between 0 and [ncell_global], so the unsigned arithmetic
    never wraps. *)
Definition ncell_local (ncell_global num_domains domain_id : N) : N :=
  let ncell_local := (ncell_global / num_domains)%N in
  let remainder := (ncell_global - ncell_local * num_domains)%N in
  if (domain_id <? remainder)%N then (ncell_local + 1)%N else ncell_local.

(** Arithmetic of [unsigned] and [uint32_t]. *)
Definition wrap32 (x : N) : N := (x mod 2 ^ 32)%N.

(** The domain ids of a run with [num_domains] domains. *)
Definition domain_ids (num_domains : N) : list N :=
  N.of_nat <$> seq 0 (N.to_nat num_domains).

(** The options of a one-cell network with random sources. *)
Definition single_cell_options : cl_options :=
  {| cells := 1; synapses_per_cell := 1; all_to_all := false |}.

Section Connections.

(** The random number engine [std::mt19937] and the two distributions are
    library objects; a distribution maps an engine state to a sample and
    the next engine state. *)
Context {engine : Type}.
Variable mt19937 : N -> engine.
Variable uniform_int_distribution : N -> N -> engine -> N * engine.
Variable exponential_distribution : Q -> engine -> Q * engine.

Variable opt : cl_options.

Definition weight_distribution : engine -> Q * engine :=
  exponential_distribution (3 # 4).

Definition source_distribution : engine -> N * engine :=
  uniform_int_distribution 0 (wrap32 (cells opt + 2 ^ 32 - 1)).

(** [float weight = weight_per_cell / synapses_per_cell]. *)
Definition synapse_weight : Q :=
  (weight_per_cell / inject_Z (Z.of_N (synapses_per_cell opt)))%Q.

(** The [while (cells_added < synapses_per_cell)] loop for the cell
    [gid]; [added] collects the connections passed to
    [m.communicator.add_connection], in call order. *)
Fixpoint add_synapses (fuel : nat) (gid : N) (i cells_added target : N)
    (gen : engine) (added : list connection) : option (list connection) :=
  if (cells_added <? synapses_per_cell opt)%N then
    match fuel with
    | O => None
    | S fuel' =>
        let '(source, gen1) :=
          if all_to_all opt then (i, gen) else source_distribution gen in
        if negb (gid =? source)%N then
          let '(w, gen2) := weight_distribution gen1 in
          let con := {| source := source;
                        destination := target;
                        weight := synapse_weight;
                        delay := (synapse_delay + w)%Q |} in
          add_synapses fuel' gid (wrap32 (i + 1)) (wrap32 (cells_added + 1))
            (target + 1)%N gen2 (added ++ [con])
        else
          add_synapses fuel' gid (wrap32 (i + 1)) cells_added target gen1 added
    end
  else Some added.

(** The body of the [for (lid ...)] loop: the connections that terminate
    on the local cell [lid]. *)
Definition connections_of_cell (fuel : nat)
    (target_gid_from_group_lid group_gid_from_group_lid : N -> N) (lid : N)
  : option (list connection) :=
  let target := target_gid_from_group_lid lid in
  let gid := group_gid_from_group_lid lid in
  let gen := mt19937 gid in
  add_synapses fuel gid 0 0 target gen [].


Definition local_lids (ncell_local : N) : list N :=
  N.of_nat <$> seq 0 (N.to_nat ncell_local).

End Connections.


(** Options of two small networks, and the connections the degenerate
    engine below gives cell 1 of the second one. *)
Definition all_to_all_options : cl_options :=
  {| cells := 3; synapses_per_cell := 2; all_to_all := true |}.

Definition random_options : cl_options :=
  {| cells := 2; synapses_per_cell := 2; all_to_all := false |}.

Definition random_connections : list connection :=
  [ {| source := 0; destination := 2;
       weight := (weight_per_cell / 2)%Q; delay := (synapse_delay + 0)%Q |};
    {| source := 0; destination := 3;
       weight := (weight_per_cell / 2)%Q; delay := (synapse_delay + 0)%Q |} ].

(** A degenerate engine: the uniform distribution returns its lower
    bound and the exponential one returns 0. *)
Definition lower_bound_uniform (a b : N) (g : unit) : N * unit := (a, g).
Definition zero_exponential (lambda : Q) (g : unit) : Q * unit := (0%Q, g).

End Miniapp.

(* ================================================================== *)
(** * Cable cells: [arbor/cable_cell.cpp] *)

Module CableCell.

(** The closed set of segment shapes behind [segment_ptr]. *)
Inductive segment : Type :=
| placeholder_segment
| soma_segment (radius : Q)
| cable_segment (radii : list Q).

Definition is_placeholder (s : segment) : bool :=
  match s with placeholder_segment => true | _ => false end.

(** [as_cable()] is a null pointer unless the segment is a cable. *)
Definition as_cable (s : segment) : option segment :=
  match s with cable_segment _ => Some s | _ => None end.

Definition as_soma (s : segment) : option segment :=
  match s with soma_segment _ => Some s | _ => None end.

Inductive cable_cell_error : Type :=
| cable_cell_error_what (what : string).

Record cable_cell : Type := {
  segments_ : list segment;
  parents_ : list N
}.

(** [cable_cell::cable_cell()] inserts a placeholder for the soma. *)
Definition new_cable_cell : cable_cell :=
  {| segments_ := [placeholder_segment]; parents_ := [0%N] |}.

Definition num_segments (c : cable_cell) : N :=
  N.of_nat (length (segments_ c)).

Definition assert_valid_segment (c : cable_cell) (i : N)
  : result cable_cell_error unit :=
  if (num_segments c <=? i)%N
  then Err (cable_cell_error_what "no such segment")
  else Ok tt.

Definition get_segment (c : cable_cell) (index : N)
  : result cable_cell_error segment :=
  match assert_valid_segment c index with
  | Err e => Err e
  | Ok _ =>
      match segments_ c !! N.to_nat index with
      | Some s => Ok s
      | None => Err (cable_cell_error_what "no such segment")
      end
  end.

Definition has_soma (c : cable_cell) : result cable_cell_error bool :=
  match get_segment c 0 with
  | Err e => Err e
  | Ok s => Ok (negb (is_placeholder s))
  end.

(** [cable_cell::add_soma]. *)
Definition add_soma (c : cable_cell) (radius : Q)
  : result cable_cell_error (cable_cell * segment) :=
  match has_soma c with
  | Err e => Err e
  | Ok true => Err (cable_cell_error_what "cell already has soma")
  | Ok false =>
      let s := soma_segment radius in
      Ok ({| segments_ := <[0 := s]> (segments_ c); parents_ := parents_ c |}, s)
  end.

(** [cable_cell::add_cable(index_type parent, segment_ptr&& cable)]: the
    result is the grown cell and the segment now at the back. *)
Definition add_cable (c : cable_cell) (parent : N) (cable : segment)
  : result cable_cell_error (cable_cell * segment) :=
  match as_cable cable with
  | None => Err (cable_cell_error_what "segment is not a cable segment")
  | Some _ =>
      if (num_segments c <? parent)%N
      then Err (cable_cell_error_what "parent index out of range")
      else Ok ({| segments_ := segments_ c ++ [cable];
                  parents_ := parents_ c ++ [parent] |}, cable)
  end.

(** [cable_cell::cable(index)]. *)
Definition get_cable (c : cable_cell) (index : N)
  : result cable_cell_error segment :=
  match get_segment c index with
  | Err e => Err e
  | Ok s =>
      match as_cable s with
      | Some cab => Ok cab
      | None => Err (cable_cell_error_what "segment is not a cable segment")
      end
  end.

End CableCell.

(* ================================================================== *)
(** * More of [arbor/cable_cell.cpp] *)

Module CableCellOps.
Import CableCell.

(** [cable_cell::soma()]: the soma, or a null pointer when there is none. *)
Definition soma (c : cable_cell) : result cable_cell_error (option segment) :=
  match has_soma c with
  | Err e => Err e
  | Ok true =>
      match get_segment c 0 with
      | Err e => Err e
      | Ok s => Ok (as_soma s)
      end
  | Ok false => Ok None
  end.

(** The two operations that change the segments of a cell. *)
Inductive build_op : Type :=
| op_add_soma (radius : Q)
| op_add_cable (parent : N) (cable : segment).

Definition apply_op (c : cable_cell) (op : build_op)
  : result cable_cell_error cable_cell :=
  match op with
  | op_add_soma radius =>
      match add_soma c radius with
      | Ok (c', _) => Ok c'
      | Err e => Err e
      end
  | op_add_cable parent cable =>
      match add_cable c parent cable with
      | Ok (c', _) => Ok c'
      | Err e => Err e
      end
  end.

(** A sequence of operations on a cell; the first exception ends it. *)
Fixpoint apply_ops (c : cable_cell) (ops : list build_op)
  : result cable_cell_error cable_cell :=
  match ops with
  | [] => Ok c
  | op :: ops' =>
      match apply_op c op with
      | Ok c' => apply_ops c' ops'
      | Err e => Err e
      end
  end.

(** The shape of the two vectors of a cell: one parent per segment, a
    first segment that is not a cable, cables everywhere else, and no
    parent index above the segment's own index. *)
Definition well_shaped (c : cable_cell) : Prop :=
  length (parents_ c) = length (segments_ c)
  /\ (exists s0 rest,
        segments_ c = s0 :: rest
        /\ as_cable s0 = None
        /\ Forall (fun s => as_cable s = Some s) rest)
  /\ (forall i p, parents_ c !! i = Some p -> (p <= N.of_nat i)%N).

(** [segment_location]: a segment index and a relative position. *)
Record segment_location : Type := {
  loc_segment : N;
  loc_position : Q
}.

(** The payload of a current clamp. *)
Record i_clamp : Type := {
  clamp_delay : Q;
  clamp_duration : Q;
  clamp_amplitude : Q
}.

(** A cell with the two vectors [add_stimulus] and [add_detector]
    append to. *)
Record decorated_cell : Type := {
  cell : cable_cell;
  stimuli_ : list (segment_location * i_clamp);
  spike_detectors_ : list (segment_location * Q)
}.

(** [cable_cell::add_stimulus]: [segment(loc.segment)] is evaluated for
    its range check only. *)
Definition add_stimulus (d : decorated_cell) (loc : segment_location)
    (stim : i_clamp) : result cable_cell_error decorated_cell :=
  match get_segment (cell d) (loc_segment loc) with
  | Err e => Err e
  | Ok _ =>
      Ok {| cell := cell d;
            stimuli_ := stimuli_ d ++ [(loc, stim)];
            spike_detectors_ := spike_detectors_ d |}
  end.

(** [cable_cell::add_detector]. *)
Definition add_detector (d : decorated_cell) (loc : segment_location)
    (threshold : Q) : decorated_cell :=
  {| cell := cell d;
     stimuli_ := stimuli_ d;
     spike_detectors_ := spike_detectors_ d ++ [(loc, threshold)] |}.

(** A cell built by three operations: a soma, a cable on the soma and a
    cable that names itself as parent. *)
Definition example_ops : list build_op :=
  [ op_add_soma 6; op_add_cable 0 (cable_segment [1; 1]%Q);
    op_add_cable 2 (cable_segment [1]%Q) ].

Definition example_cell : cable_cell :=
  {| segments_ :=
       [soma_segment 6; cable_segment [1; 1]%Q; cable_segment [1]%Q];
     parents_ := [0; 0; 2]%N |}.

End CableCellOps.

(* ================================================================== *)
(** * Observations on driver traces *)

Module DriverTrace.
Import Driver.

(** Number of [exchange] calls in a trace. *)
Fixpoint count_exchanges {T} (tr : list (call T)) : nat :=
  match tr with
  | [] => 0
  | exchange :: tr' => S (count_exchanges tr')
  | _ :: tr' => count_exchanges tr'
  end.

(** The end times group [i] is advanced to, in call order. *)
Fixpoint advance_targets {T} (i : nat) (tr : list (call T)) : list T :=
  match tr with
  | [] => []
  | advance j tend _ :: tr' =>
      if Nat.eqb i j then tend :: advance_targets i tr'
      else advance_targets i tr'
  | _ :: tr' => advance_targets i tr'
  end.

End DriverTrace.

(* ================================================================== *)
(** * The values of binary64 numbers *)

Module Binary64.

(** A finite [double] is [m * 2^e] with [e >= -1074], so it is a whole
    number of units of [2^-1074]: [ulps x] is that number, signed.  It
    is 0 on the zeros (and, by convention, on infinities and NaN). *)
Definition ulps (x : float) : Z :=
  match Prim2SF x with
  | S754_finite s m e =>
      let v := (Z.pos m * 2 ^ (e + 1074))%Z in
      if s then (- v)%Z else v
  | _ => 0%Z
  end.

(** Neither an infinity nor a NaN. *)
Definition finite64 (x : float) : bool :=
  match Prim2SF x with
  | S754_zero _ | S754_finite _ _ _ => true
  | _ => false
  end.

(** The real number a finite [double] stands for. *)
Definition value64 (x : float) : Q := Qmake (ulps x) (2 ^ 1074).

(** The sum [a + b] computed in binary64 is the exact sum: it is finite
    and was not rounded. *)
Definition exact_add (a b : float) : Prop :=
  finite64 (a + b) = true
  /\ (value64 (a + b) == value64 a + value64 b)%Q.

End Binary64.

(* ================================================================== *)
(** * The initial spikes: [main] *)

Module Seeding.

(** [{i, 0}], the aggregate passed to [add_spike]. *)
Record spike : Type := {
  spike_source : N;
  spike_time : Q
}.

(** [if (first%20) first += 20 - (first%20);] on the unsigned 32-bit
    [cell_gid_type]: [first%20] is below 20, so the subtraction does not
    wrap; the sum is reduced modulo [2^32]. *)
Definition round_up_20 (first : N) : N :=
  if negb (first mod 20 =? 0)%N
  then Miniapp.wrap32 (first + (20 - first mod 20))
  else first.

(** [for (auto i=first; i<last; i+=20) add_spike({i, 0});]: [added]
    collects the spikes passed to [add_spike], in call order.  [i] has
    the type of [first], so [i+=20] is reduced modulo [2^32]. *)
Fixpoint seed_loop (fuel : nat) (i last : N) (added : list spike)
  : option (list spike) :=
  if (i <? last)%N then
    match fuel with
    | O => None
    | S fuel' =>
        seed_loop fuel' (Miniapp.wrap32 (i + 20)) last
          (added ++ [{| spike_source := i; spike_time := 0 |}])
    end
  else Some added.

(** Lines 246-254 of [main]; [gid_first] and [gid_next] are the values
    of [group_gid_first(id)] and [group_gid_first(id+1)], both below
    [2^32]. *)
Definition seed_spikes (fuel : nat) (gid_first gid_next : N)
  : option (list spike) :=
  let first := round_up_20 gid_first in
  let last := gid_next in
  seed_loop fuel first last [].

(** Linear arithmetic with the division and remainder by 20 spelt out. *)
Ltac euclid := zify; Z.to_euclidean_division_equations; lia.

End Seeding.

(* ================================================================== *)
(** * Traces and samplers: [model::trace_data], [simple_sampler_functor] *)

Module Traces.

(** [trace_data::sample_type]. *)
Record sample_type (T : Type) : Type := {
  time : T;
  value : T
}.

Arguments time {T} _.
Arguments value {T} _.

(** [model::trace_data]. *)
Record trace_data (T : Type) : Type := {
  name : string;
  units : string;
  id : N;
  samples : list (sample_type T)
}.

Arguments name {T} _.
Arguments units {T} _.
Arguments id {T} _.
Arguments samples {T} _.

(** [simple_sampler_functor]; the reference member [traces_] is the
    [traces] vector of the model, which the operations below take and
    return. *)
Record simple_sampler_functor (T : Type) : Type := {
  trace_index_ : nat;
  requested_sample_time_ : T;
  dt_ : T
}.

Arguments trace_index_ {T} _.
Arguments requested_sample_time_ {T} _.
Arguments dt_ {T} _.

(** [mc::cell_member_type]: [{gid, index}]. *)
Record cell_member_type : Type := {
  gid : N;
  index : N
}.

(** [mc::sampler]: [{probe_id, functor}]. *)
Record sampler (T : Type) : Type := {
  probe_id : cell_member_type;
  functor : simple_sampler_functor T
}.

Arguments probe_id {T} _.
Arguments functor {T} _.

Section Sampling.
Context {T : Type} `{TimeOps T}.

(** [simple_sampler_functor::operator()(t, v)]: append the sample to
    [traces_[trace_index_]] and return [requested_sample_time_ += dt_].
    An index outside the vector has no defined behaviour: [None]. *)
Definition sample (traces : list (trace_data T))
    (f : simple_sampler_functor T) (t v : T)
  : option (list (trace_data T) * simple_sampler_functor T * T) :=
  match traces !! trace_index_ f with
  | None => None
  | Some tr =>
      let tr' := {| name := name tr; units := units tr; id := id tr;
                    samples := samples tr ++ [{| time := t; value := v |}] |} in
      let requested := t_add (requested_sample_time_ f) (dt_ f) in
      Some (<[trace_index_ f := tr']> traces,
            {| trace_index_ := trace_index_ f;
               requested_sample_time_ := requested;
               dt_ := dt_ f |},
            requested)
  end.

(** [model::make_simple_sampler]: [traces.push_back(...)], then a
    functor on the index [traces.size()-1]. *)
Definition make_simple_sampler (traces : list (trace_data T))
    (probe : cell_member_type) (nm un : string) (dt : T)
  : list (trace_data T) * sampler T :=
  let traces' :=
    traces ++ [{| name := nm; units := un; id := gid probe; samples := [] |}] in
  (traces',
   {| probe_id := probe;
      functor := {| trace_index_ := length traces' - 1;
                    requested_sample_time_ := t_zero;
                    dt_ := dt |} |}).

(** [model::reset_traces]. *)
Definition reset_traces (traces : list (trace_data T)) : list (trace_data T) :=
  [].

(** A cell group calling one sampler on a sequence of [(t, v)] pairs;
    the result lists the values the calls returned. *)
Fixpoint sample_all (traces : list (trace_data T))
    (f : simple_sampler_functor T) (calls : list (T * T))
  : option (list (trace_data T) * simple_sampler_functor T * list T) :=
  match calls with
  | [] => Some (traces, f, [])
  | (t, v) :: rest =>
      match sample traces f t v with
      | None => None
      | Some (traces', f', r) =>
          match sample_all traces' f' rest with
          | None => None
          | Some (traces'', f'', rs) => Some (traces'', f'', r :: rs)
          end
      end
  end.

(** The probe section of [all_to_all_model]: the body of the loop over
    [monitor_group_gids].  [installed] collects the samplers passed to
    [cell_groups[lid].add_sampler], with the [lid]; [sample_dt] stands
    for the local [float sample_dt = 0.1]. *)
Definition install_probes_for (is_local_group : N -> bool)
    (group_lid : N -> N) (probe_gid_range_first : N -> N) (sample_dt : T)
    (state : list (trace_data T) * list (N * sampler T)) (g : N)
  : list (trace_data T) * list (N * sampler T) :=
  if negb (is_local_group g) then state
  else
    let '(traces, installed) := state in
    let lid := group_lid g in
    let probe_soma := {| gid := g; index := probe_gid_range_first lid |} in
    let probe_dend := {| gid := g; index := (index probe_soma + 1)%N |} in
    let probe_dend_current :=
      {| gid := g; index := (index probe_soma + 2)%N |} in
    let '(traces1, s1) :=
      make_simple_sampler traces probe_soma "vsoma" "mV" sample_dt in
    let '(traces2, s2) :=
      make_simple_sampler traces1 probe_dend "vdend" "mV" sample_dt in
    let '(traces3, s3) :=
      make_simple_sampler traces2 probe_dend_current "idend" "mA/cm²"
        sample_dt in
    (traces3, installed ++ [(lid, s1); (lid, s2); (lid, s3)]).

(** [index_type monitor_group_gids[] = { 0, 1, 2 };] *)
Definition monitor_group_gids : list N := [0; 1; 2]%N.

(** The loop over the monitored gids. *)
Definition install_probes_over (gids : list N) (is_local_group : N -> bool)
    (group_lid : N -> N) (probe_gid_range_first : N -> N) (sample_dt : T)
    (state : list (trace_data T) * list (N * sampler T))
  : list (trace_data T) * list (N * sampler T) :=
  foldl (install_probes_for is_local_group group_lid probe_gid_range_first
           sample_dt) state gids.

Definition install_probes (is_local_group : N -> bool)
    (group_lid : N -> N) (probe_gid_range_first : N -> N) (sample_dt : T)
    (traces : list (trace_data T))
  : list (trace_data T) * list (N * sampler T) :=
  install_probes_over monitor_group_gids is_local_group group_lid
    probe_gid_range_first sample_dt (traces, []).

End Sampling.

End Traces.

(* ================================================================== *)
(** * The cell description of the miniapp: [make_cell] *)

Module MakeCell.
Import CableCellOps.

Inductive segmentKind : Type := dendrite.
Inductive probeKind : Type := membrane_voltage | membrane_current.
Inductive mechanism_parameters : Type := hh_parameters | pas_parameters.

(** The calls [make_cell] makes on the [mc::cell] it builds and on the
    segments it gets back; [d] is the position in the local vector
    [dendrites]. *)
Inductive cell_call : Type :=
| add_soma (radius : Q)
| soma_add_mechanism (m : mechanism_parameters)
| add_cable (parent : N) (kind : segmentKind) (r1 r2 len : Q)
| dendrite_add_mechanism (d : nat) (m : mechanism_parameters)
| dendrite_set_compartments (d : nat) (n : Z)
| dendrite_set_r_L (d : nat) (v : Q)
| add_detector (loc : segment_location) (threshold : Q)
| add_synapse (loc : segment_location) (syn_type : string)
| add_probe (loc : segment_location) (kind : probeKind).

Section Engine.
Context {engine : Type}.
(** [std::mt19937()] and [std::uniform_real_distribution<float>(0, 1)]. *)
Variable default_engine : engine.
Variable uniform_real_distribution : Q -> Q -> engine -> Q * engine.

(** [for (auto i=0; i<num_synapses; ++i)
       cell.add_synapse({2+(i%2), distribution(gen)}, syn_default);]
    with [n] iterations left. *)
Fixpoint synapse_calls (n : nat) (i : Z) (gen : engine) (syn_type : string)
  : list cell_call :=
  match n with
  | O => []
  | S n' =>
      let '(pos, gen') := uniform_real_distribution 0 1 gen in
      add_synapse {| loc_segment := Z.to_N (2 + Z.rem i 2);
                     loc_position := pos |} syn_type
      :: synapse_calls n' (i + 1)%Z gen' syn_type
  end.

(** The three calls of the loop over [dendrites]. *)
Definition dendrite_calls (compartments_per_segment : Z) (d : nat)
  : list cell_call :=
  [ dendrite_add_mechanism d pas_parameters;
    dendrite_set_compartments d compartments_per_segment;
    dendrite_set_r_L d 100 ].

(** [make_cell(compartments_per_segment, num_synapses, syn_type)]. *)
Definition make_cell (compartments_per_segment num_synapses : Z)
    (syn_type : string) : list cell_call :=
  [ add_soma (126157 # 20000); soma_add_mechanism hh_parameters;
    add_cable 0 dendrite (1 # 2) (1 # 2) 200;
    add_cable 1 dendrite (1 # 2) (1 # 4) 100;
    add_cable 1 dendrite (1 # 2) (1 # 4) 100 ]
  ++ concat (dendrite_calls compartments_per_segment <$> [0; 1; 2])
  ++ [ add_detector {| loc_segment := 0; loc_position := 0 |} 20 ]
  ++ synapse_calls (Z.to_nat num_synapses) 0 default_engine syn_type
  ++ [ add_probe {| loc_segment := 0; loc_position := 0 |} membrane_voltage;
       add_probe {| loc_segment := 1; loc_position := 1 # 2 |}
         membrane_voltage;
       add_probe {| loc_segment := 1; loc_position := 1 # 2 |}
         membrane_current ].

End Engine.

(** The segments of the [add_synapse] calls of a call sequence. *)
Fixpoint synapse_segments (calls : list cell_call) : list N :=
  match calls with
  | [] => []
  | add_synapse loc _ :: calls' => loc_segment loc :: synapse_segments calls'
  | _ :: calls' => synapse_segments calls'
  end.

(** The parents of the segments a call sequence creates: the soma has
    none, every cable has the parent it was given. *)
Fixpoint segment_parents (calls : list cell_call) : list (option N) :=
  match calls with
  | [] => []
  | add_soma _ :: calls' => None :: segment_parents calls'
  | add_cable parent _ _ _ _ :: calls' => Some parent :: segment_parents calls'
  | _ :: calls' => segment_parents calls'
  end.

(** How often [x] occurs in a list of segment indices. *)
Fixpoint occurrences (x : N) (l : list N) : nat :=
  match l with
  | [] => 0
  | y :: l' => (if (x =? y)%N then 1 else 0) + occurrences x l'
  end.

End MakeCell.

(* ================================================================== *)
(** * Comparison of rationals and sums of counts *)

Lemma Qltb_lt (a b : Q) : Qltb a b = true <-> (a < b)%Q.
Proof.
  unfold Qltb. rewrite negb_true_iff. split.
  - intros Hf. apply Qnot_le_lt. intros Hle. apply Qle_bool_iff in Hle. congruence.
  - intros Hlt. destruct (Qle_bool b a) eqn:E; [|reflexivity].
    apply Qle_bool_iff in E. exfalso. apply (Qlt_not_le _ _ Hlt E).
Qed.

Lemma Qltb_ge (a b : Q) : Qltb a b = false <-> (b <= a)%Q.
Proof.
  unfold Qltb. rewrite negb_false_iff. apply Qle_bool_iff.
Qed.

Lemma sum_counts_app (l1 l2 : list N) :
  sum_counts (l1 ++ l2) = (sum_counts l1 + sum_counts l2)%N.
Proof.
  unfold sum_counts. induction l1 as [|x l1 IH]; cbn; [reflexivity|].
  rewrite IH. lia.
Qed.

Lemma sum_counts_take_S (l : list N) (k : nat) (c : N) :
  l !! k = Some c ->
  sum_counts (take (S k) l) = (sum_counts (take k l) + c)%N.
Proof.
  intros Hk. rewrite (take_S_r _ _ _ Hk), sum_counts_app. cbn. lia.
Qed.

(* ================================================================== *)
(** * Properties of the driver *)

Module DriverFacts.
Import Driver.

Section Generic.
Context {T : Type} `{TimeOps T}.

(** The loop runs exactly [m] iterations when its guard holds at the
    first [m] values of [t] and fails at the next one; the fuel only has
    to cover them. *)
Lemma run_loop_unroll (n : nat) (tfinal dt delta : T) :
  forall (m fuel : nat) (t : T) (tr : list (call T)),
    (forall j, j < m -> t_ltb (t_after delta j t) tfinal = true) ->
    t_ltb (t_after delta m t) tfinal = false ->
    m <= fuel ->
    run_loop fuel n tfinal dt delta t tr =
    Some (t_after delta m t,
          tr ++ concat ((fun j => epoch_calls n dt
                           (std_min (t_add (t_after delta j t) delta) tfinal))
                        <$> seq 0 m)).
Proof.
  induction m as [|m IH]; intros fuel t tr Hlt Hge Hfuel.
  - cbn in Hge. destruct fuel; cbn; rewrite Hge, app_nil_r; reflexivity.
  - destruct fuel as [|fuel]; [lia|].
    pose proof (Hlt 0 ltac:(lia)) as H0. cbn in H0.
    cbn [run_loop]. rewrite H0.
    rewrite (IH fuel (t_add t delta)); [| |assumption|lia].
    + cbn [seq fmap list_fmap concat t_after].
      rewrite <- fmap_S_seq, <- list_fmap_compose, <- app_assoc.
      reflexivity.
    + intros j Hj. apply (Hlt (S j)). lia.
Qed.

(** With less fuel than iterations the model reports that it ran out. *)
Lemma run_loop_out_of_fuel (n : nat) (tfinal dt delta : T) :
  forall (fuel : nat) (t : T) (tr : list (call T)),
    (forall j, j <= fuel -> t_ltb (t_after delta j t) tfinal = true) ->
    run_loop fuel n tfinal dt delta t tr = None.
Proof.
  induction fuel as [|fuel IH]; intros t tr Hlt.
  - pose proof (Hlt 0 ltac:(lia)) as H0. cbn in H0.
    cbn. rewrite H0. reflexivity.
  - pose proof (Hlt 0 ltac:(lia)) as H0. cbn in H0.
    cbn [run_loop]. rewrite H0. apply IH.
    intros j Hj. apply (Hlt (S j)). lia.
Qed.

End Generic.

(** ** Schedules of one epoch *)

Lemma interleaving_concat {A} (tasks : list (list A)) :
  forall finished, Forall (fun t => t = []) finished ->
    interleaving (finished ++ tasks) (concat tasks).
Proof.
  induction tasks as [|t tasks IH]; intros finished Hfin.
  - rewrite app_nil_r. cbn. by constructor.
  - induction t as [|x t IHt].
    + cbn. replace (finished ++ [] :: tasks) with ((finished ++ [[]]) ++ tasks)
        by (rewrite <- app_assoc; reflexivity).
      apply IH. apply Forall_app; split; [assumption|]. by repeat constructor.
    + cbn. apply (interleaving_step _ (length finished) x t).
      * rewrite lookup_app_r by lia. by rewrite Nat.sub_diag.
      * rewrite insert_app_r_alt by lia. rewrite Nat.sub_diag. cbn. exact IHt.
Qed.

(** The serial back end is one of the schedules. *)
Lemma epoch_calls_schedule {T} (n : nat) (tend dt : T) :
  epoch_schedule n tend dt (epoch_calls n dt tend).
Proof.
  exists (parallel_for 0 n (group_task tend dt)). split; [|reflexivity].
  apply (interleaving_concat _ []). constructor.
Qed.

(** Whatever the schedule, the calls on one group appear in the order of
    that group's task. *)
Lemma interleaving_projection {T} (tasks : list (list (call T)))
    (tr : list (call T)) :
  interleaving tasks tr ->
  (forall k t c, tasks !! k = Some t -> c ∈ t -> group_of c = Some k) ->
  forall i, calls_of_group i tr = default [] (tasks !! i).
Proof.
  induction 1 as [tasks Hall|tasks k x rest tr Hk Hint IH]; intros Hgrp i.
  - cbn. destruct (tasks !! i) as [t|] eqn:Hi; [|reflexivity].
    cbn. symmetry. exact (proj1 (Forall_lookup _ _) Hall i t Hi).
  - assert (Hlen : k < length tasks) by (eapply lookup_lt_Some; eassumption).
    assert (Hx : group_of x = Some k).
    { eapply Hgrp; [eassumption|]. by left. }
    assert (IH' : calls_of_group i tr = default [] (<[k:=rest]> tasks !! i)).
    { apply IH. intros k' t c Hk' Hc.
      destruct (decide (k' = k)) as [->|Hne].
      - rewrite list_lookup_insert_eq in Hk' by assumption.
        injection Hk' as <-. eapply Hgrp; [eassumption|]. by right.
      - rewrite list_lookup_insert_ne in Hk' by congruence.
        eapply Hgrp; eassumption. }
    cbn [calls_of_group]. unfold on_group. rewrite Hx.
    destruct (Nat.eqb_spec i k) as [->|Hne].
    + rewrite IH', list_lookup_insert_eq, Hk by assumption. reflexivity.
    + rewrite IH', list_lookup_insert_ne by congruence. reflexivity.
Qed.

Lemma interleaving_elem_of {A} (tasks : list (list A)) (tr : list A) :
  interleaving tasks tr ->
  forall x, x ∈ tr -> exists t, t ∈ tasks /\ x ∈ t.
Proof.
  induction 1 as [tasks Hall|tasks k y rest tr Hk Hint IH]; intros x Hx.
  - by apply elem_of_nil in Hx.
  - apply elem_of_cons in Hx as [->|Hx].
    + exists (y :: rest). split; [by eapply list_elem_of_lookup_2|by left].
    + destruct (IH x Hx) as (t & Ht & Hxt).
      apply list_elem_of_lookup_1 in Ht as [k' Hk'].
      assert (Hlen : k < length tasks) by (eapply lookup_lt_Some; eassumption).
      destruct (decide (k' = k)) as [->|Hne].
      * rewrite list_lookup_insert_eq in Hk' by assumption.
        injection Hk' as <-. exists (y :: rest).
        split; [by eapply list_elem_of_lookup_2|by right].
      * rewrite list_lookup_insert_ne in Hk' by congruence.
        exists t. split; [by eapply list_elem_of_lookup_2|assumption].
Qed.

Lemma parallel_for_tasks_lookup {A} (n i : nat) (f : nat -> list A) :
  parallel_for_tasks 0 n f !! i = if decide (i < n) then Some (f i) else None.
Proof.
  unfold parallel_for_tasks. rewrite Nat.sub_0_r, list_lookup_fmap.
  destruct (decide (i < n)) as [Hi|Hi].
  - by rewrite lookup_seq_lt.
  - by rewrite lookup_seq_ge by lia.
Qed.

(** Within one epoch, under every schedule of the parallel loop, the
    calls made on a locally owned group [i] are, in this order,
    [enqueue_events] (drain the group's event queue into the group),
    [advance] to the epoch end time, [add_spikes] (forward the group's
    spikes to the spike buffer) and [clear_spikes]; groups that are not
    local receive no call; and [exchange] is the single last call of the
    epoch, made after the sequences of all groups are complete. *)
Lemma scheduler_epoch_order {T} (n : nat) (tend dt : T)
    (tr : list (call T)) :
  epoch_schedule n tend dt tr ->
  exists par,
    tr = par ++ [exchange]
    /\ (exchange ∉ par)
    /\ (forall i, i < n ->
          calls_of_group i par =
          [enqueue_events i; advance i tend dt; add_spikes i; clear_spikes i])
    /\ (forall i, n <= i -> calls_of_group i par = []).
Proof.
  intros (par & Hint & ->). exists par.
  assert (Hgrp : forall k t c,
             parallel_for_tasks 0 n (group_task tend dt) !! k = Some t ->
             c ∈ t -> group_of c = Some k).
  { intros k t c Hk Hc. rewrite parallel_for_tasks_lookup in Hk.
    destruct (decide (k < n)); [|discriminate]. injection Hk as <-.
    unfold group_task in Hc.
    repeat (apply elem_of_cons in Hc as [->|Hc]; [reflexivity|]).
    by apply elem_of_nil in Hc. }
  split; [reflexivity|]. split; [|split].
  - intros Hex. destruct (interleaving_elem_of _ _ Hint _ Hex) as (t & Ht & Hc).
    apply list_elem_of_lookup_1 in Ht as [k Hk].
    specialize (Hgrp k t exchange Hk Hc). discriminate.
  - intros i Hi. rewrite (interleaving_projection _ _ Hint Hgrp).
    rewrite parallel_for_tasks_lookup. by rewrite decide_True.
  - intros i Hi. rewrite (interleaving_projection _ _ Hint Hgrp).
    rewrite parallel_for_tasks_lookup. by rewrite decide_False by lia.
Qed.

Lemma scheduler_epoch_order_witness :
  epoch_schedule 2 5%Q (1 # 40)%Q overlapped_epoch
  /\ exists par,
       overlapped_epoch = par ++ [exchange]
       /\ (exchange ∉ par)
       /\ (forall i, i < 2 ->
             calls_of_group i par =
             [enqueue_events i; advance i 5%Q (1 # 40)%Q; add_spikes i;
              clear_spikes i])
       /\ (forall i, 2 <= i -> calls_of_group i par = []).
Proof.
  assert (Hs : epoch_schedule 2 5%Q (1 # 40)%Q overlapped_epoch).
  { exists overlapped_tasks. split; [|reflexivity]. cbn.
    next_call 1. next_call 0. next_call 0. next_call 1.
    next_call 1. next_call 0. next_call 0. next_call 1.
    constructor. repeat constructor. }
  split; [exact Hs|].
  exact (scheduler_epoch_order 2 5%Q (1 # 40)%Q overlapped_epoch Hs).
Defined.

(** ** The loop over exact rationals *)

Lemma t_after_Q (delta : Q) (j : nat) (t : Q) :
  (t_after delta j t == t + inject_Z (Z.of_nat j) * delta)%Q.
Proof.
  revert t. induction j as [|j IH]; intros t.
  - cbn. ring.
  - cbn [t_after]. rewrite IH. cbn [t_add Q_time].
    rewrite Nat2Z.inj_succ. unfold Z.succ. rewrite inject_Z_plus. ring.
Qed.

Lemma t_at_Q (delta : Q) (j : nat) :
  (t_at delta j == inject_Z (Z.of_nat j) * delta)%Q.
Proof. unfold t_at. rewrite t_after_Q. cbn. ring. Qed.

Lemma ceiling_pos (x : Q) : (0 < x)%Q -> (1 <= Qceiling x)%Z.
Proof.
  intros Hx. pose proof (Qle_ceiling x) as H.
  assert (0 < inject_Z (Qceiling x))%Q by lra.
  assert (0 < Qceiling x)%Z by (rewrite Zlt_Qlt; exact H0). lia.
Qed.

Lemma ceiling_bounds (tfinal d : Q) :
  (0 < d)%Q ->
  (inject_Z (Qceiling (tfinal / d) - 1) * d < tfinal)%Q
  /\ (tfinal <= inject_Z (Qceiling (tfinal / d)) * d)%Q.
Proof.
  intros Hd.
  assert (Hq : (tfinal / d * d == tfinal)%Q) by (field; lra).
  split.
  - rewrite <- Hq at 2. apply Qmult_lt_r; [assumption|]. apply Qceiling_lt.
  - rewrite <- Hq at 1. apply Qmult_le_r; [assumption|]. apply Qle_ceiling.
Qed.

Lemma guard_Q (delta tfinal : Q) (j : nat) :
  t_ltb (t_after delta j t_zero) tfinal = true
  <-> (inject_Z (Z.of_nat j) * delta < tfinal)%Q.
Proof.
  cbn [t_ltb t_zero Q_time]. rewrite Qltb_lt, t_after_Q.
  split; intros Hlt; lra.
Qed.

Lemma guard_Q_false (delta tfinal : Q) (j : nat) :
  t_ltb (t_after delta j t_zero) tfinal = false
  <-> (tfinal <= inject_Z (Z.of_nat j) * delta)%Q.
Proof.
  cbn [t_ltb t_zero Q_time]. rewrite Qltb_ge, t_after_Q.
  split; intros Hlt; lra.
Qed.

(** The loop guards of [run] over [Q]: with [steps] the ceiling of
    [tfinal / min_delay], the guard holds before each of the first
    [steps] iterations and fails after them. *)
Lemma steps_guards (min_delay tfinal : Q) :
  (0 < tfinal)%Q -> (0 < min_delay)%Q ->
  let steps := Z.to_nat (Qceiling (tfinal / min_delay)) in
  let delta := std_min min_delay tfinal in
  (1 <= steps)%nat
  /\ (0 < delta)%Q
  /\ (delta <= min_delay)%Q
  /\ ((1 < steps)%nat -> delta = min_delay)
  /\ (forall j, (j < steps)%nat -> (inject_Z (Z.of_nat j) * delta < tfinal)%Q)
  /\ (tfinal <= inject_Z (Z.of_nat steps) * delta)%Q.
Proof.
  intros Hf Hd steps delta.
  assert (Hx : (0 < tfinal / min_delay)%Q).
  { apply Qlt_shift_div_l; lra. }
  pose proof (ceiling_pos _ Hx) as HK.
  destruct (ceiling_bounds tfinal min_delay Hd) as [Hlo Hhi].
  assert (Hsteps : Z.of_nat steps = Qceiling (tfinal / min_delay)).
  { unfold steps. lia. }
  unfold delta, std_min. cbn [t_ltb Q_time].
  destruct (Qltb tfinal min_delay) eqn:E.
  - apply Qltb_lt in E.
    assert (H1 : Qceiling (tfinal / min_delay) = 1%Z).
    { assert (Hle : (tfinal / min_delay <= 1)%Q).
      { apply Qle_shift_div_r; lra. }
      apply Qceiling_resp_le in Hle. change 1%Q with (inject_Z 1) in Hle.
      rewrite Qceiling_Z in Hle. lia. }
    assert (Hs1 : steps = 1%nat) by lia.
    rewrite Hs1.
    split; [lia|]. split; [lra|]. split; [lra|]. split; [lia|]. split.
    + intros j Hj. assert (j = 0%nat) as -> by lia.
      change (inject_Z (Z.of_nat 0)) with 0%Q. lra.
    + change (inject_Z (Z.of_nat 1)) with 1%Q. lra.
  - apply Qltb_ge in E.
    split; [lia|]. split; [lra|]. split; [lra|]. split; [reflexivity|]. split.
    + intros j Hj.
      assert (Hjz : (inject_Z (Z.of_nat j)
                     <= inject_Z (Qceiling (tfinal / min_delay) - 1))%Q).
      { rewrite <- Zle_Qle. lia. }
      apply (Qmult_le_r _ _ min_delay Hd) in Hjz. lra.
    + rewrite Hsteps. exact Hhi.
Qed.


(** Over exact rational time, for every [tfinal > 0] and
    [min_delay > 0] the stepping loop terminates after exactly
    [ceil (tfinal / min_delay)] iterations: that much fuel gives a result,
    less runs out.  [delta] is positive; iteration [j] starts at
    [j * min_delay], has positive length at most [min_delay], ends at
    [(j+1) * min_delay] when it is not the last one and at [tfinal] when it
    is (the final step may be shorter). *)
Lemma run_terminates_in_ceiling_steps (n : nat) (min_delay tfinal dt : Q) :
  (0 < tfinal)%Q -> (0 < min_delay)%Q ->
  let steps := Z.to_nat (Qceiling (tfinal / min_delay)) in
  let delta := std_min min_delay tfinal in
  (0 < delta)%Q
  /\ (forall fuel, steps <= fuel ->
        run fuel n min_delay tfinal dt =
        Some (t_at delta steps,
              concat ((fun j => epoch_calls n dt (epoch_end tfinal delta j))
                      <$> seq 0 steps)))
  /\ (forall fuel, fuel < steps -> run fuel n min_delay tfinal dt = None)
  /\ (forall j, j < steps ->
        (t_at delta j == inject_Z (Z.of_nat j) * min_delay)%Q
        /\ (t_at delta j < epoch_end tfinal delta j)%Q
        /\ (epoch_end tfinal delta j - t_at delta j <= min_delay)%Q
        /\ (S j < steps ->
            (epoch_end tfinal delta j == inject_Z (Z.of_nat (S j)) * min_delay)%Q)
        /\ (S j = steps -> (epoch_end tfinal delta j == tfinal)%Q)).
Proof.
  intros Hf Hd steps delta.
  destruct (steps_guards min_delay tfinal Hf Hd)
    as (Hs1 & Hdpos & Hdle & Hdeq & Hlt & Hge).
  fold steps in Hs1, Hdeq, Hlt, Hge. fold delta in Hdpos, Hdle, Hdeq, Hlt, Hge.
  split; [exact Hdpos|]. split; [|split].
  - intros fuel Hfuel. unfold run. fold delta.
    apply (run_loop_unroll n tfinal dt delta steps fuel t_zero []).
    + intros j Hj. apply guard_Q. auto.
    + apply guard_Q_false. exact Hge.
    + exact Hfuel.
  - intros fuel Hfuel. unfold run. fold delta.
    apply run_loop_out_of_fuel. intros j Hj. apply guard_Q. apply Hlt. lia.
  - intros j Hj.
    pose proof (t_at_Q delta j) as Htj.
    pose proof (Hlt j Hj) as Hltj.
    assert (HSj : (inject_Z (Z.of_nat (S j)) * delta
                   == t_at delta j + delta)%Q).
    { rewrite Htj, Nat2Z.inj_succ. unfold Z.succ. rewrite inject_Z_plus. ring. }
    assert (Hjd : (inject_Z (Z.of_nat j) * delta
                   == inject_Z (Z.of_nat j) * min_delay)%Q).
    { destruct (decide (1 < steps)) as [H1|H1].
      - rewrite (Hdeq H1). reflexivity.
      - assert (j = 0) as -> by lia. change (inject_Z (Z.of_nat 0)) with 0%Q. ring. }
    unfold epoch_end, std_min. cbn [t_ltb t_add Q_time].
    destruct (Qltb tfinal (t_at delta j + delta)) eqn:E.
    + apply Qltb_lt in E. split; [lra|]. split; [lra|]. split; [lra|]. split.
      * intros HS. pose proof (Hlt (S j) HS). lra.
      * intros _. reflexivity.
    + apply Qltb_ge in E. split; [lra|]. split; [lra|]. split; [lra|]. split.
      * intros HS. rewrite (Hdeq ltac:(lia)) in *. lra.
      * intros HS. rewrite <- HS in Hge. lra.
Qed.

Lemma run_terminates_in_ceiling_steps_witness :
  (0 < 7 # 2)%Q /\ (0 < 3 # 2)%Q
  /\ run 3 1 (3 # 2) (7 # 2) (1 # 8)
     = Some (t_at (3 # 2)%Q 3,
             concat ((fun j => epoch_calls 1 (1 # 8)%Q
                                 (epoch_end (7 # 2)%Q (3 # 2)%Q j))
                     <$> seq 0 3))
  /\ run 2 1 (3 # 2) (7 # 2) (1 # 8) = None.
Proof.
  split; [reflexivity|]. split; [reflexivity|].
  pose proof (run_terminates_in_ceiling_steps 1 (3 # 2) (7 # 2) (1 # 8)
                eq_refl eq_refl) as (_ & Hrun & Hout & _).
  split.
  - exact (Hrun 3 (le_n 3)).
  - exact (Hout 2 (le_n 3)).
Defined.

Lemma guards_17_5 {T} `{TimeOps T} (five seventeen : T) :
  t_ltb t_zero seventeen = true ->
  t_ltb (t_add t_zero five) seventeen = true ->
  t_ltb (t_add (t_add t_zero five) five) seventeen = true ->
  t_ltb (t_add (t_add (t_add t_zero five) five) five) seventeen = true ->
  forall j, j < 4 -> t_ltb (t_after five j t_zero) seventeen = true.
Proof.
  intros H0 H1 H2 H3 j Hj.
  destruct j as [|[|[|[|j]]]]; cbn; try assumption. lia.
Qed.

Lemma run_17_5_binary64 (n k : nat) (dt : float) :
  run (4 + k) n 5%float 17%float dt =
    Some (20%float, concat (epoch_calls n dt <$> [5; 10; 15; 17]%float))
  /\ run 3 n 5%float 17%float dt = None.
Proof.
  split.
  - unfold run. change (std_min 5%float 17%float) with 5%float.
    rewrite (run_loop_unroll n 17%float dt 5%float 4).
    + reflexivity.
    + apply guards_17_5; reflexivity.
    + reflexivity.
    + lia.
  - unfold run. apply run_loop_out_of_fuel.
    intros j Hj. apply guards_17_5; try reflexivity. lia.
Qed.

Lemma run_17_5_rational (n k : nat) (dt : Q) :
  run (4 + k) n 5%Q 17%Q dt =
    Some (20%Q, concat (epoch_calls n dt <$> [5; 10; 15; 17]%Q))
  /\ run 3 n 5%Q 17%Q dt = None.
Proof.
  split.
  - unfold run. change (std_min 5%Q 17%Q) with 5%Q.
    rewrite (run_loop_unroll n 17%Q dt 5%Q 4).
    + reflexivity.
    + apply guards_17_5; reflexivity.
    + reflexivity.
    + lia.
  - unfold run. apply run_loop_out_of_fuel.
    intros j Hj. apply guards_17_5; try reflexivity. lia.
Qed.

Lemma out_of_fuel_17_5 {T} `{TimeOps T} (five seventeen dt : T) (n fuel : nat) :
  t_ltb t_zero seventeen = true ->
  t_ltb (t_add t_zero five) seventeen = true ->
  t_ltb (t_add (t_add t_zero five) five) seventeen = true ->
  t_ltb (t_add (t_add (t_add t_zero five) five) five) seventeen = true ->
  fuel < 4 ->
  run_loop fuel n seventeen dt five t_zero [] = None.
Proof.
  intros H0 H1 H2 H3 Hfuel. apply run_loop_out_of_fuel.
  intros j Hj. apply guards_17_5; try assumption. lia.
Qed.

(** C1 (amended). With [tfinal = 17] and [min_delay = 5], in binary64 and
    in exact arithmetic alike: [delta] is computed once, before the loop,
    as [min(min_delay, tfinal) = 5]; the loop makes exactly four
    iterations, in which the groups are advanced to the end times
    5, 10, 15 and 17 (the end time is clamped to [tfinal]), that is epochs
    of lengths 5, 5, 5, 2; and the local [t] is 20 when the loop exits. *)
Theorem run_17_5 (n k : nat) :
  (forall dt : float,
     std_min 5%float 17%float = 5%float
     /\ run (4 + k) n 5%float 17%float dt =
        Some (20%float,
              concat (epoch_calls n dt <$> [5; 10; 15; 17]%float))
     /\ run 3 n 5%float 17%float dt = None)
  /\ (forall dt : Q,
     std_min 5%Q 17%Q = 5%Q
     /\ run (4 + k) n 5%Q 17%Q dt =
        Some (20%Q, concat (epoch_calls n dt <$> [5; 10; 15; 17]%Q))
     /\ run 3 n 5%Q 17%Q dt = None)
  /\ epoch_lengths [5; 10; 15; 17]%Q = [5; 5; 5; 2]%Q.
Proof.
  split; [|split]; [intros dt|intros dt|reflexivity].
  - split; [reflexivity|]. apply run_17_5_binary64.
  - split; [reflexivity|]. apply run_17_5_rational.
Qed.

Lemma float_20_neq_17 : 20%float <> 17%float.
Proof.
  intros Heq.
  assert (Hb : PrimFloat.eqb 20 17 = PrimFloat.eqb 17 17) by (rewrite Heq; reflexivity).
  vm_compute in Hb. discriminate.
Qed.

(** C1 as stated fails: no run with [tfinal = 17] and [min_delay = 5]
    ends with [t = 17], in binary64 or in exact arithmetic. *)
Lemma run_17_5_final_time_is_not_17 :
  ~ (exists fuel tr,
       run fuel 1 5%float 17%float 0.125%float = Some (17%float, tr))
  /\ ~ (exists fuel tr, run fuel 1 5%Q 17%Q (1 # 8)%Q = Some (17%Q, tr)).
Proof.
  split.
  - intros (fuel & tr & Hrun). apply (f_equal final_time) in Hrun.
    destruct (le_lt_dec 4 fuel) as [Hge|Hlt].
    + replace fuel with (4 + (fuel - 4)) in Hrun by lia.
      rewrite (proj1 (run_17_5_binary64 1 (fuel - 4) 0.125%float)) in Hrun.
      cbn in Hrun. apply float_20_neq_17. congruence.
    + unfold run in Hrun. change (std_min 5%float 17%float) with 5%float in Hrun.
      rewrite out_of_fuel_17_5 in Hrun by (reflexivity || assumption).
      discriminate.
  - intros (fuel & tr & Hrun). apply (f_equal final_time) in Hrun.
    destruct (le_lt_dec 4 fuel) as [Hge|Hlt].
    + replace fuel with (4 + (fuel - 4)) in Hrun by lia.
      rewrite (proj1 (run_17_5_rational 1 (fuel - 4) (1 # 8)%Q)) in Hrun.
      discriminate.
    + unfold run in Hrun. change (std_min 5%Q 17%Q) with 5%Q in Hrun.
      rewrite out_of_fuel_17_5 in Hrun by (reflexivity || assumption).
      discriminate.
Qed.

End DriverFacts.

(* ================================================================== *)
(** * Properties of the index mapper and of the communicator *)

Module MapperFacts.
Import Algorithms.

Lemma make_index_lookup (counts : list N) (k : nat) :
  k <= length counts ->
  make_index counts !! k = Some (sum_counts (take k counts)).
Proof.
  intros Hk. unfold make_index.
  rewrite list_lookup_fmap, lookup_seq_lt by lia. reflexivity.
Qed.

(** C3. For every sequence of [n] counts (counts are unsigned, hence
    non-negative), [make_index] returns [n+1] offsets with
    [offsets[0] = 0], [offsets[k+1] = offsets[k] + counts[k]] for every
    [k < n], and [offsets[n] = sum counts]; entry [k] is the sum of the
    counts before unit [k]. *)
Theorem make_index_prefix_sums (counts : list N) :
  length (make_index counts) = length counts + 1
  /\ make_index counts !! 0 = Some 0%N
  /\ (forall k c, counts !! k = Some c ->
        exists o, make_index counts !! k = Some o
                  /\ make_index counts !! (S k) = Some (o + c)%N)
  /\ make_index counts !! length counts = Some (sum_counts counts)
  /\ (forall k, k <= length counts ->
        make_index counts !! k = Some (sum_counts (take k counts))).
Proof.
  split; [|split; [|split; [|split]]].
  - unfold make_index. by rewrite length_fmap, length_seq.
  - rewrite make_index_lookup by lia. reflexivity.
  - intros k c Hk. pose proof (lookup_lt_Some _ _ _ Hk) as Hlt.
    exists (sum_counts (take k counts)).
    rewrite !make_index_lookup by lia.
    split; [reflexivity|]. by rewrite (sum_counts_take_S _ _ _ Hk).
  - rewrite make_index_lookup by lia. by rewrite firstn_all.
  - apply make_index_lookup.
Qed.

(** The scenario of the specification: counts [2,2,2,2] give the offsets
    [0,2,4,6] and the total 8. *)
Example make_index_scenario :
  Algorithms.make_index [2; 2; 2; 2]%N = [0; 2; 4; 6; 8]%N
  /\ Algorithms.make_index [1; 1; 1; 1]%N = [0; 1; 2; 3; 4]%N.
Proof. split; reflexivity. Qed.

(** [init_communicator] leaves the cell groups alone and stores the
    offsets of the synapse counts and of the spike-source counts. *)
Lemma init_communicator_maps (m : Miniapp.model) (k : nat) :
  k <= Miniapp.num_groups m ->
  Miniapp.cell_groups (Miniapp.init_communicator m) = Miniapp.cell_groups m
  /\ Miniapp.target_map (Miniapp.init_communicator m) !! k
     = Some (sum_counts (take k (Miniapp.num_synapses
                                   <$> Miniapp.cell_groups m)))
  /\ Miniapp.source_map (Miniapp.init_communicator m) !! k
     = Some (sum_counts (take k (Miniapp.num_spike_sources
                                   <$> Miniapp.cell_groups m))).
Proof.
  intros Hk. unfold Miniapp.num_groups in Hk. cbn.
  split; [reflexivity|].
  split; apply make_index_lookup; by rewrite length_fmap.
Qed.

End MapperFacts.

Module CommunicatorFacts.
Import Communicator.

Lemma std_min_Q (a b : Q) :
  (std_min a b = a \/ std_min a b = b)
  /\ (std_min a b <= a)%Q /\ (std_min a b <= b)%Q.
Proof.
  unfold std_min. cbn [t_ltb Q_time].
  destruct (Qltb b a) eqn:E.
  - apply Qltb_lt in E. split; [by right|]. split; lra.
  - apply Qltb_ge in E. split; [by left|]. split; lra.
Qed.

Lemma min_of_None (l : list Q) : min_of l = None <-> l = [].
Proof.
  destruct l as [|d l]; cbn; [done|].
  destruct (min_of l); split; discriminate.
Qed.

Lemma min_of_Some (l : list Q) (m : Q) :
  min_of l = Some m -> m ∈ l /\ forall x, x ∈ l -> (m <= x)%Q.
Proof.
  revert m. induction l as [|d l IH]; intros m Hm; [discriminate|].
  cbn in Hm. destruct (min_of l) as [m'|] eqn:El.
  - injection Hm as <-. destruct (IH m' eq_refl) as [Hin Hle].
    destruct (std_min_Q d m') as ([->| ->] & Hd & Hm').
    + split; [by left|]. intros x Hx. apply elem_of_cons in Hx as [->|Hx]; [lra|].
      specialize (Hle x Hx). lra.
    + split; [by right|]. intros x Hx. apply elem_of_cons in Hx as [->|Hx]; [lra|].
      exact (Hle x Hx).
  - injection Hm as <-. apply min_of_None in El as ->.
    split; [by left|]. intros x Hx. apply list_elem_of_singleton in Hx as ->. lra.
Qed.

Lemma construct_Ok (c0 c : communicator) :
  construct c0 = Ok c ->
  constructed c0 = false /\ constructed c = true
  /\ connections c ≡ₚ connections c0
  /\ Forall (fun con => (0 <= delay con)%Q) (connections c0).
Proof.
  unfold construct. intros Hc.
  destruct (constructed c0); [discriminate|].
  destruct (forallb _ _) eqn:Hall; [|discriminate].
  injection Hc as <-. cbn. split; [done|]. split; [done|].
  split; [apply merge_sort_Permutation|].
  apply Forall_forall. intros con Hin.
  rewrite forallb_forall in Hall. apply Qle_bool_iff, Hall.
  by apply list_elem_of_In.
Qed.

Lemma local_min_delay_spec (c : communicator) :
  match local_min_delay c with
  | Some m =>
      (exists con, con ∈ connections c /\ delay con = m)
      /\ (forall con, con ∈ connections c -> (m <= delay con)%Q)
  | None => connections c = []
  end.
Proof.
  unfold local_min_delay. destruct (min_of _) as [m|] eqn:E.
  - apply min_of_Some in E as [Hin Hle]. split.
    + apply list_elem_of_fmap in Hin as (con & -> & Hcon). by exists con.
    + intros con Hcon. apply Hle. by apply list_elem_of_fmap_2.
  - apply min_of_None in E. by apply fmap_nil_inv in E.
Qed.

(** The collective minimum over the communicators [world]. *)
Lemma min_delay_spec (world : list communicator) :
  match min_delay world with
  | Some m =>
      (exists c con, c ∈ world /\ con ∈ connections c /\ delay con = m)
      /\ (forall c con, c ∈ world -> con ∈ connections c -> (m <= delay con)%Q)
  | None => forall c, c ∈ world -> connections c = []
  end.
Proof.
  unfold min_delay, global_policy_min.
  destruct (min_of _) as [m|] eqn:E.
  - apply min_of_Some in E as [Hin Hle]. split.
    + apply list_elem_of_omap in Hin as (o & Ho & Hm). cbn in Hm. subst o.
      apply list_elem_of_fmap in Ho as (c & Hc & Hcw).
      pose proof (local_min_delay_spec c) as Hl. rewrite <- Hc in Hl.
      destruct Hl as [(con & Hcon & Hd) _]. by exists c, con.
    + intros c con Hcw Hcon.
      pose proof (local_min_delay_spec c) as Hl.
      destruct (local_min_delay c) as [mc|] eqn:Ec.
      * destruct Hl as [_ Hlow]. specialize (Hlow con Hcon).
        assert (Hmc : mc ∈ omap id (local_min_delay <$> world)).
        { apply list_elem_of_omap. exists (Some mc). split; [|done].
          rewrite <- Ec. by apply list_elem_of_fmap_2. }
        specialize (Hle mc Hmc). lra.
      * rewrite Hl in Hcon. by apply elem_of_nil in Hcon.
  - apply min_of_None in E. intros c Hcw.
    pose proof (local_min_delay_spec c) as Hl.
    destruct (local_min_delay c) as [mc|] eqn:Ec; [|exact Hl].
    assert (Hmc : mc ∈ omap id (local_min_delay <$> world)).
    { apply list_elem_of_omap. exists (Some mc). split; [|done].
      rewrite <- Ec. by apply list_elem_of_fmap_2. }
    rewrite E in Hmc. by apply elem_of_nil in Hmc.
Qed.

(** C5. After [construct()] has succeeded on every domain, the value
    [min_delay()] returns (the same on every domain) is the minimum over
    the connections added on all domains: it is the delay of one of
    them and no connection of any domain has a smaller delay; domains
    without connections do not contribute. *)
Theorem min_delay_is_global_minimum (added world : list communicator) :
  Forall2 (fun c0 c => construct c0 = Ok c) added world ->
  match min_delay world with
  | Some m =>
      (exists c0 con, c0 ∈ added /\ con ∈ connections c0 /\ delay con = m)
      /\ (forall c0 con,
            c0 ∈ added -> con ∈ connections c0 -> (m <= delay con)%Q)
  | None => forall c0, c0 ∈ added -> connections c0 = []
  end.
Proof.
  intros Hcons. pose proof (min_delay_spec world) as Hspec.
  assert (Hfwd : forall c, c ∈ world ->
            exists c0, c0 ∈ added /\ connections c ≡ₚ connections c0).
  { intros c Hc. apply list_elem_of_lookup_1 in Hc as [i Hi].
    destruct (Forall2_lookup_r _ _ _ _ _ Hcons Hi) as (c0 & Hi0 & Hok).
    exists c0. split; [by eapply list_elem_of_lookup_2|].
    by apply construct_Ok in Hok as (_ & _ & Hp & _). }
  assert (Hbwd : forall c0, c0 ∈ added ->
            exists c, c ∈ world /\ connections c ≡ₚ connections c0).
  { intros c0 Hc0. apply list_elem_of_lookup_1 in Hc0 as [i Hi].
    destruct (Forall2_lookup_l _ _ _ _ _ Hcons Hi) as (c & Hic & Hok).
    exists c. split; [by eapply list_elem_of_lookup_2|].
    by apply construct_Ok in Hok as (_ & _ & Hp & _). }
  destruct (min_delay world) as [m|].
  - destruct Hspec as [(c & con & Hc & Hcon & Hd) Hlow]. split.
    + destruct (Hfwd c Hc) as (c0 & Hc0 & Hp).
      exists c0, con. split; [done|]. split; [|done]. by rewrite <- Hp.
    + intros c0 con0 Hc0 Hcon0. destruct (Hbwd c0 Hc0) as (c' & Hc' & Hp).
      apply (Hlow c'); [done|]. by rewrite Hp.
  - intros c0 Hc0. destruct (Hbwd c0 Hc0) as (c' & Hc' & Hp).
    rewrite (Hspec c' Hc') in Hp. by apply Permutation_nil_l in Hp.
Qed.

Lemma min_delay_is_global_minimum_witness :
  Forall2 (fun c0 c => construct c0 = Ok c) example_added example_world
  /\ min_delay example_world = Some 3%Q
  /\ (exists c0 con,
        c0 ∈ example_added /\ con ∈ connections c0 /\ delay con = 3%Q)
  /\ (forall c0 con,
        c0 ∈ example_added -> con ∈ connections c0 -> (3 <= delay con)%Q).
Proof.
  assert (Hc : Forall2 (fun c0 c => construct c0 = Ok c)
                 example_added example_world).
  { repeat constructor. }
  split; [exact Hc|]. split; [reflexivity|].
  exact (min_delay_is_global_minimum example_added example_world Hc).
Defined.

Lemma group_gid_first_S (c : communicator) (d : nat) (count : N) :
  group_counts c !! d = Some count ->
  group_gid_first c (S d) = (group_gid_first c d + count)%N.
Proof. apply sum_counts_take_S. Qed.

(** C6. For every local index [lid] of a cell group of the domain, the
    global id [group_gid_from_group_lid lid] is a local group and
    [group_lid] maps it back to [lid]. *)
Theorem group_lid_round_trip (c : communicator) (lid : N) :
  (lid < num_local_groups c)%N ->
  is_local_group c (group_gid_from_group_lid c lid) = true
  /\ group_lid c (group_gid_from_group_lid c lid) = lid.
Proof.
  unfold num_local_groups, is_local_group, group_lid, group_gid_from_group_lid.
  intros Hlid. destruct (group_counts c !! domain_id c) as [count|] eqn:Hd.
  - cbn in Hlid. rewrite (group_gid_first_S _ _ _ Hd). split; [|lia].
    apply andb_true_intro. split; [apply N.leb_le|apply N.ltb_lt]; lia.
  - cbn in Hlid. lia.
Qed.

Lemma group_lid_round_trip_witness :
  (1 < num_local_groups domain0)%N
  /\ group_gid_from_group_lid domain1 0 = 2%N
  /\ is_local_group domain1 2 = true
  /\ group_lid domain1 2 = 0%N
  /\ is_local_group domain0
       (group_gid_from_group_lid domain0 1) = true
  /\ group_lid domain0
       (group_gid_from_group_lid domain0 1) = 1%N.
Proof.
  split; [reflexivity|]. split; [reflexivity|].
  split; [reflexivity|]. split; [reflexivity|].
  exact (group_lid_round_trip domain0 1 eq_refl).
Defined.

(** C7. Once [construct()] has succeeded, [add_connection] fails with
    [UsageError]; no communicator with the connection added results. *)
Theorem add_connection_after_construct (c0 c : communicator)
    (con : connection) :
  construct c0 = Ok c ->
  add_connection c con = Err UsageError.
Proof.
  intros Hok. apply construct_Ok in Hok as (_ & Hc & _).
  unfold add_connection. by rewrite Hc.
Qed.

Lemma add_connection_after_construct_witness :
  construct domain0_added = Ok domain0
  /\ add_connection domain0
       {| source := 0; destination := 0; weight := 1; delay := 20 |}
     = Err UsageError.
Proof.
  split; [reflexivity|].
  exact (add_connection_after_construct domain0_added domain0 _ eq_refl).
Defined.

End CommunicatorFacts.

(* ================================================================== *)
(** * Properties of cable cells *)

Module CableCellFacts.
Import CableCell.

(** C8 (amended). [add_cable] throws exactly when the segment is not a
    cable segment or the parent index is strictly greater than
    [num_segments()].  A cable whose parent equals [num_segments()] is
    accepted although that index refers to no existing segment: the new
    cable itself receives the index, and the value is recorded as its
    parent. *)
Theorem add_cable_parent_check (c : cable_cell) (parent : N) (cable : segment) :
  ((exists e, add_cable c parent cable = Err e)
   <-> as_cable cable = None \/ (num_segments c < parent)%N)
  /\ (forall radii,
        get_segment c (num_segments c)
        = Err (cable_cell_error_what "no such segment")
        /\ add_cable c (num_segments c) (cable_segment radii)
           = Ok ({| segments_ := segments_ c ++ [cable_segment radii];
                    parents_ := parents_ c ++ [num_segments c] |},
                 cable_segment radii)
        /\ (segments_ c ++ [cable_segment radii]) !! N.to_nat (num_segments c)
           = Some (cable_segment radii)
        /\ last (parents_ c ++ [num_segments c]) = Some (num_segments c)).
Proof.
  split.
  - unfold add_cable. destruct (as_cable cable) as [s|] eqn:Hc.
    + destruct (N.ltb_spec (num_segments c) parent) as [Hlt|Hge].
      * split; [intros _; by right|intros _; by eexists].
      * split; [intros [e He]; discriminate|].
        intros [Hn|Hlt]; [discriminate|lia].
    + split; [intros _; by left|intros _; by eexists].
  - intros radii. split; [|split; [|split]].
    + unfold get_segment, assert_valid_segment. by rewrite N.leb_refl.
    + unfold add_cable. cbn [as_cable]. by rewrite N.ltb_irrefl.
    + unfold num_segments. rewrite Nat2N.id. by apply list_lookup_middle.
    + by rewrite last_snoc.
Qed.

(** C8 as stated fails: a soma segment offered as a cable is rejected
    with parent 0, which is not greater than [num_segments()]. *)
Lemma add_cable_rejects_non_cable :
  ~ (forall (c : cable_cell) (parent : N) (cable : segment) e,
       add_cable c parent cable = Err e -> (num_segments c < parent)%N).
Proof.
  intros Hclaim.
  specialize (Hclaim new_cable_cell 0%N (soma_segment 1) _ eq_refl).
  vm_compute in Hclaim. discriminate.
Qed.

End CableCellFacts.

Module MiniappFacts.
Import Miniapp.

Lemma ncell_local_cases (ncell_global num_domains d : N) :
  (0 < num_domains)%N ->
  ncell_local ncell_global num_domains d =
    ((ncell_global / num_domains)
     + (if (d <? ncell_global mod num_domains) then 1 else 0))%N.
Proof.
  intros Hd. unfold ncell_local.
  assert (Hr : (ncell_global - ncell_global / num_domains * num_domains
                = ncell_global mod num_domains)%N).
  { rewrite (N.mul_comm (ncell_global / num_domains)).
    symmetry. apply N.Div0.mod_eq. }
  rewrite Hr. destruct (d <? _)%N; lia.
Qed.

Lemma sum_ncell_local_prefix (ncell_global num_domains : N) (k : nat) :
  (0 < num_domains)%N ->
  sum_counts (ncell_local ncell_global num_domains <$> (N.of_nat <$> seq 0 k))
  = (N.of_nat k * (ncell_global / num_domains)
     + N.min (N.of_nat k) (ncell_global mod num_domains))%N.
Proof.
  intros Hd. induction k as [|k IH].
  - cbn [seq fmap list_fmap sum_counts foldr].
    change (N.of_nat 0) with 0%N. rewrite N.mul_0_l, N.min_0_l. reflexivity.
  - rewrite seq_S, !fmap_app, sum_counts_app, IH.
    cbn [fmap list_fmap sum_counts foldr Nat.add].
    rewrite ncell_local_cases by assumption.
    destruct (N.ltb_spec (N.of_nat k) (ncell_global mod num_domains)); lia.
Qed.

(** C9. For every global cell count and every positive number of
    domains, the local cell counts of the domains [0 .. num_domains-1]
    add up to [ncell_global], any two of them differ by at most one, and
    none exceeds [ncell_global] (so the unsigned arithmetic computing
    them does not wrap). *)
Theorem ncell_local_partition (ncell_global num_domains : N) :
  (0 < num_domains)%N ->
  sum_counts (ncell_local ncell_global num_domains <$> domain_ids num_domains)
  = ncell_global
  /\ (forall d1 d2,
        (d1 < num_domains)%N -> (d2 < num_domains)%N ->
        (ncell_local ncell_global num_domains d1
         <= ncell_local ncell_global num_domains d2 + 1)%N)
  /\ (forall d, (d < num_domains)%N ->
        (ncell_local ncell_global num_domains d <= ncell_global)%N).
Proof.
  intros Hd.
  pose proof (N.div_mod ncell_global num_domains ltac:(lia)) as Hdm.
  pose proof (N.mod_lt ncell_global num_domains ltac:(lia)) as Hmod.
  split; [|split].
  - unfold domain_ids. rewrite sum_ncell_local_prefix by assumption.
    rewrite N2Nat.id. lia.
  - intros d1 d2 _ _. rewrite !ncell_local_cases by assumption.
    destruct (d1 <? _)%N, (d2 <? _)%N; lia.
  - intros d Hlt. rewrite ncell_local_cases by assumption.
    generalize dependent (ncell_global / num_domains)%N.
    generalize dependent (ncell_global mod num_domains)%N.
    intros r Hr q Hdm.
    destruct (N.ltb_spec d r); nia.
Qed.

Lemma ncell_local_partition_witness :
  (0 < 3)%N
  /\ ncell_local 10 3 <$> domain_ids 3 = [4; 3; 3]%N
  /\ sum_counts (ncell_local 10 3 <$> domain_ids 3) = 10%N.
Proof.
  split; [reflexivity|]. split; [reflexivity|].
  exact (proj1 (ncell_local_partition 10 3 eq_refl)).
Defined.

End MiniappFacts.

(* ================================================================== *)
(** * Properties of the connection-building loop *)

Module NetworkFacts.
Import Communicator Miniapp.

Section Engine.
Context {engine : Type}.
Variable mt19937 : N -> engine.
Variable uniform_int_distribution : N -> N -> engine -> N * engine.
Variable exponential_distribution : Q -> engine -> Q * engine.

(** The library contracts of the two distributions. *)
Hypothesis uniform_range : forall a b g,
  (a <= b)%N ->
  (a <= fst (uniform_int_distribution a b g) <= b)%N.

Lemma single_cell_loop_spins (fuel : nat) :
  forall i target gen,
    add_synapses uniform_int_distribution exponential_distribution
      single_cell_options fuel 0 i 0 target gen [] = None.
Proof using uniform_range.
  induction fuel as [|fuel IH]; intros i target gen; [reflexivity|].
  cbn [add_synapses single_cell_options synapses_per_cell all_to_all].
  change (0 <? 1)%N with true. cbv iota.
  change (source_distribution uniform_int_distribution single_cell_options)
    with (uniform_int_distribution 0%N 0%N).
  pose proof (uniform_range 0 0 gen ltac:(lia)) as Hr.
  destruct (uniform_int_distribution 0 0 gen) as [source gen1].
  cbn in Hr. assert (source = 0%N) as -> by lia.
  cbn. apply IH.
Qed.

End Engine.

(** C10 (failing input). With one cell, random sources and one synapse
    per cell, the only source the distribution can produce is the cell
    itself: the loop for cell 0 never adds a connection and never ends,
    whatever the fuel. *)
Theorem single_cell_network_never_completes {engine : Type}
    (mt19937 : N -> engine)
    (uniform_int_distribution : N -> N -> engine -> N * engine)
    (exponential_distribution : Q -> engine -> Q * engine)
    (target_gid_from_group_lid group_gid_from_group_lid : N -> N) :
  (forall a b g, (a <= b)%N ->
     (a <= fst (uniform_int_distribution a b g) <= b)%N) ->
  group_gid_from_group_lid 0%N = 0%N ->
  forall fuel,
    connections_of_cell mt19937 uniform_int_distribution
      exponential_distribution single_cell_options fuel
      target_gid_from_group_lid group_gid_from_group_lid 0 = None.
Proof.
  intros Hrange Hgid fuel. unfold connections_of_cell. rewrite Hgid.
  by apply single_cell_loop_spins.
Qed.

Lemma single_cell_network_never_completes_witness :
  (forall a b g, (a <= b)%N -> (a <= fst (lower_bound_uniform a b g) <= b)%N)
  /\ connections_of_cell (fun _ => tt) lower_bound_uniform zero_exponential
       single_cell_options 1000 (fun lid => lid) (fun lid => lid) 0 = None.
Proof.
  assert (Hr : forall a b g, (a <= b)%N ->
                 (a <= fst (lower_bound_uniform a b g) <= b)%N).
  { intros a b g Hab. cbn. lia. }
  split; [exact Hr|].
  exact (single_cell_network_never_completes (fun _ => tt) lower_bound_uniform
           zero_exponential (fun lid => lid) (fun lid => lid) Hr eq_refl 1000).
Defined.

Lemma wrap32_small (x : N) : (x < 2 ^ 32)%N -> wrap32 x = x.
Proof. intros Hx. unfold wrap32. by apply N.mod_small. Qed.


Section Sound.
Context {engine : Type}.
Variable mt19937 : N -> engine.
Variable uniform_int_distribution : N -> N -> engine -> N * engine.
Variable exponential_distribution : Q -> engine -> Q * engine.
Variable opt : cl_options.

Hypothesis exponential_nonneg : forall lambda g,
  (0 <= fst (exponential_distribution lambda g))%Q.
Hypothesis synapses_fit : (synapses_per_cell opt < 2 ^ 32)%N.


End Sound.

Section Complete.
Context {engine : Type}.
Variable mt19937 : N -> engine.
Variable uniform_int_distribution : N -> N -> engine -> N * engine.
Variable exponential_distribution : Q -> engine -> Q * engine.
Variable opt : cl_options.

Hypothesis is_all_to_all : all_to_all opt = true.
Hypothesis synapses_fit : (synapses_per_cell opt + 1 < 2 ^ 32)%N.

(** In all-to-all mode the candidate source [i] runs through 0, 1, 2, ...
    and passes the cell's own id at most once: one iteration more than
    the number of missing connections always suffices. *)
Lemma all_to_all_loop_completes (fuel : nat) :
  forall gid i cells_added target gen added,
    (cells_added <= synapses_per_cell opt)%N ->
    (i = cells_added
     /\ N.to_nat (synapses_per_cell opt - cells_added) + 1 <= fuel)
    \/ (i = (cells_added + 1)%N /\ (gid < i)%N
        /\ N.to_nat (synapses_per_cell opt - cells_added) <= fuel) ->
    exists res,
      add_synapses uniform_int_distribution exponential_distribution opt
        fuel gid i cells_added target gen added = Some res.
Proof using is_all_to_all synapses_fit.
  induction fuel as [|fuel IH];
    intros gid i cells_added target gen added Hle Hcase.
  - destruct Hcase as [[_ Hf]|(_ & _ & Hf)]; [lia|].
    cbn. destruct (N.ltb_spec cells_added (synapses_per_cell opt)); [lia|].
    by eexists.
  - cbn [add_synapses].
    destruct (N.ltb_spec cells_added (synapses_per_cell opt)) as [Hlt|Hge];
      [|by eexists].
    rewrite is_all_to_all.
    rewrite (wrap32_small (cells_added + 1)) by lia.
    rewrite (wrap32_small (i + 1)) by lia.
    destruct (N.eqb_spec gid i) as [Heq|Hne]; cbn [negb].
    + apply IH; [lia|]. right. lia.
    + destruct (weight_distribution exponential_distribution gen) as [w gen2].
      apply IH; [lia|]. destruct Hcase as [[-> Hf]|(-> & Hgid & Hf)].
      * left. lia.
      * right. lia.
Qed.

End Complete.






End NetworkFacts.
(* ================================================================== *)
(** * Properties of the cable cell operations *)

Module CableCellOpsFacts.
Import CableCell CableCellOps.

Lemma get_segment_lookup (c : cable_cell) (i : N) :
  get_segment c i =
  match segments_ c !! N.to_nat i with
  | Some s => Ok s
  | None => Err (cable_cell_error_what "no such segment")
  end.
Proof.
  unfold get_segment, assert_valid_segment, num_segments.
  destruct (N.leb_spec (N.of_nat (length (segments_ c))) i) as [Hle|Hlt].
  - rewrite lookup_ge_None_2 by lia. reflexivity.
  - reflexivity.
Qed.

Lemma get_segment_in_range (c : cable_cell) (i : N) :
  (exists s, get_segment c i = Ok s) <-> (i < num_segments c)%N.
Proof.
  rewrite get_segment_lookup. unfold num_segments. split.
  - intros [s Hs]. destruct (segments_ c !! N.to_nat i) eqn:Hi; [|discriminate].
    apply lookup_lt_Some in Hi. lia.
  - intros Hlt. destruct (lookup_lt_is_Some_2 (segments_ c) (N.to_nat i))
      as [s Hs]; [lia|].
    exists s. by rewrite Hs.
Qed.

Lemma as_cable_Some (s cab : segment) : as_cable s = Some cab -> cab = s.
Proof. destruct s; cbn; congruence. Qed.

Lemma add_cable_Ok (c c' : cable_cell) (parent : N) (cab s : segment) :
  add_cable c parent cab = Ok (c', s) ->
  as_cable cab = Some cab
  /\ (parent <= num_segments c)%N
  /\ s = cab
  /\ segments_ c' = segments_ c ++ [cab]
  /\ parents_ c' = parents_ c ++ [parent].
Proof.
  unfold add_cable. destruct (as_cable cab) as [x|] eqn:Hc; [|discriminate].
  apply as_cable_Some in Hc as ->.
  destruct (N.ltb_spec (num_segments c) parent); [discriminate|].
  intros Hok. injection Hok as <- <-. cbn. by repeat split.
Qed.

Lemma add_soma_Ok (c c' : cable_cell) (radius : Q) (s : segment) :
  add_soma c radius = Ok (c', s) ->
  has_soma c = Ok false
  /\ s = soma_segment radius
  /\ segments_ c' = <[0 := soma_segment radius]> (segments_ c)
  /\ parents_ c' = parents_ c.
Proof.
  unfold add_soma. destruct (has_soma c) as [[|]|e]; try discriminate.
  intros Hok. injection Hok as <- <-. cbn. by repeat split.
Qed.

Lemma has_soma_false (c : cable_cell) :
  has_soma c = Ok false ->
  exists rest, segments_ c = placeholder_segment :: rest.
Proof.
  unfold has_soma. rewrite get_segment_lookup.
  destruct (segments_ c) as [|s0 rest]; [discriminate|]. cbn.
  destruct s0; cbn; try discriminate. intros _. by eexists.
Qed.

Lemma well_shaped_new : well_shaped new_cable_cell.
Proof.
  split; [reflexivity|]. split.
  - exists placeholder_segment, []. by repeat split.
  - intros [|i] p Hp; cbn in Hp; [|discriminate]. injection Hp as <-. lia.
Qed.

Lemma well_shaped_step (c c' : cable_cell) (op : build_op) :
  well_shaped c -> apply_op c op = Ok c' -> well_shaped c'.
Proof.
  intros (Hlen & (s0 & rest & Hseg & Hs0 & Hrest) & Hpar) Hop.
  destruct op as [radius|parent cab]; cbn in Hop.
  - destruct (add_soma c radius) as [[c1 s]|e] eqn:Hadd; [|discriminate].
    injection Hop as ->. apply add_soma_Ok in Hadd as (_ & _ & Hseg' & Hpar').
    rewrite Hseg in Hseg'. cbn in Hseg'.
    split; [rewrite Hpar', Hseg', Hlen, Hseg; reflexivity|]. split.
    + exists (soma_segment radius), rest. by repeat split.
    + rewrite Hpar'. exact Hpar.
  - destruct (add_cable c parent cab) as [[c1 s]|e] eqn:Hadd; [|discriminate].
    injection Hop as ->.
    apply add_cable_Ok in Hadd as (Hcab & Hparent & _ & Hseg' & Hpar').
    split; [rewrite Hpar', Hseg', !length_app, Hlen; reflexivity|]. split.
    + exists s0, (rest ++ [cab]). rewrite Hseg', Hseg.
      split; [reflexivity|]. split; [exact Hs0|].
      apply Forall_app. split; [exact Hrest|]. by repeat constructor.
    + intros i p Hi. rewrite Hpar' in Hi.
      apply lookup_app_Some in Hi as [Hi|[Hge Hi]]; [by apply Hpar|].
      destruct (i - length (parents_ c)) as [|k] eqn:Hk; [|discriminate].
      cbn in Hi. injection Hi as <-. unfold num_segments in Hparent. lia.
Qed.

Lemma built_cell_well_shaped_aux (ops : list build_op) (c : cable_cell) :
  apply_ops new_cable_cell ops = Ok c -> well_shaped c.
Proof.
  pose proof well_shaped_new as Hnew. revert Hnew.
  generalize new_cable_cell. induction ops as [|op ops IH]; intros c0 H0 Hops.
  - cbn in Hops. by injection Hops as <-.
  - cbn in Hops. destruct (apply_op c0 op) as [c1|e] eqn:Hop; [|discriminate].
    eapply IH; [|exact Hops]. by eapply well_shaped_step.
Qed.

(** X3. Every cell obtained from [cable_cell()] by a sequence of
    successful [add_soma] and [add_cable] calls has one parent entry per
    segment, a first segment that is not a cable (the placeholder or the
    soma), only cables after it, and no parent index greater than the
    index of the segment it belongs to. *)
Theorem built_cell_well_shaped (ops : list build_op) (c : cable_cell) :
  apply_ops new_cable_cell ops = Ok c ->
  length (parents_ c) = length (segments_ c)
  /\ (exists s0 rest,
        segments_ c = s0 :: rest
        /\ as_cable s0 = None
        /\ Forall (fun s => as_cable s = Some s) rest)
  /\ (forall i p, parents_ c !! i = Some p -> (p <= N.of_nat i)%N).
Proof.
  change (apply_ops new_cable_cell ops = Ok c -> well_shaped c).
  pose proof well_shaped_new as Hnew. revert Hnew.
  generalize new_cable_cell. induction ops as [|op ops IH]; intros c0 H0 Hops.
  - cbn in Hops. by injection Hops as <-.
  - cbn in Hops. destruct (apply_op c0 op) as [c1|e] eqn:Hop; [|discriminate].
    eapply IH; [|exact Hops]. by eapply well_shaped_step.
Qed.

Lemma built_cell_well_shaped_witness :
  apply_ops new_cable_cell example_ops = Ok example_cell
  /\ length (parents_ example_cell) = length (segments_ example_cell).
Proof.
  split; [reflexivity|].
  exact (proj1 (built_cell_well_shaped example_ops example_cell eq_refl)).
Defined.

(** X4. On a cell without soma, [add_soma] succeeds: it replaces the
    placeholder, leaves the number of segments and the parents as they
    are, [has_soma] and [soma] then report the new soma, and every later
    [add_soma] throws "cell already has soma". *)
Theorem add_soma_once (c : cable_cell) (radius : Q) :
  has_soma c = Ok false ->
  exists c',
    add_soma c radius = Ok (c', soma_segment radius)
    /\ has_soma c' = Ok true
    /\ soma c' = Ok (Some (soma_segment radius))
    /\ num_segments c' = num_segments c
    /\ parents_ c' = parents_ c
    /\ (forall i, (0 < i)%N -> get_segment c' i = get_segment c i)
    /\ (forall radius',
          add_soma c' radius'
          = Err (cable_cell_error_what "cell already has soma")).
Proof.
  intros Hno. destruct (has_soma_false c Hno) as [rest Hseg].
  unfold add_soma. rewrite Hno. eexists. split; [reflexivity|].
  assert (Hhas : has_soma
            {| segments_ := <[0:=soma_segment radius]> (segments_ c);
               parents_ := parents_ c |} = Ok true).
  { unfold has_soma. rewrite get_segment_lookup. cbn. by rewrite Hseg. }
  split; [exact Hhas|]. split; [|split; [|split; [|split]]].
  - unfold soma. rewrite Hhas, get_segment_lookup. cbn. by rewrite Hseg.
  - unfold num_segments. cbn. by rewrite length_insert.
  - reflexivity.
  - intros i Hi. rewrite !get_segment_lookup. cbn.
    rewrite list_lookup_insert_ne by lia. reflexivity.
  - intros radius'. by rewrite Hhas.
Qed.

Lemma add_soma_once_witness :
  has_soma new_cable_cell = Ok false
  /\ exists c',
       add_soma new_cable_cell 6 = Ok (c', soma_segment 6)
       /\ has_soma c' = Ok true
       /\ add_soma c' 7 = Err (cable_cell_error_what "cell already has soma").
Proof.
  split; [reflexivity|].
  destruct (add_soma_once new_cable_cell 6 eq_refl)
    as (c' & Hadd & Hhas & _ & _ & _ & _ & Hagain).
  exists c'. split; [exact Hadd|]. split; [exact Hhas|exact (Hagain 7%Q)].
Defined.

(** X5. A successful [add_cable] returns the cable it was given, grows
    the cell by exactly one segment, stores the cable at the old
    [num_segments()] where [cable] and [segment] find it, leaves every
    earlier segment as it was, and leaves the index after it invalid. *)
Theorem add_cable_then_lookup (c c' : cable_cell) (parent : N)
    (cab s : segment) :
  add_cable c parent cab = Ok (c', s) ->
  s = cab
  /\ num_segments c' = (num_segments c + 1)%N
  /\ get_segment c' (num_segments c) = Ok cab
  /\ get_cable c' (num_segments c) = Ok cab
  /\ (forall i, (i < num_segments c)%N -> get_segment c' i = get_segment c i)
  /\ get_segment c' (num_segments c')
     = Err (cable_cell_error_what "no such segment").
Proof.
  intros Hadd. apply add_cable_Ok in Hadd as (Hcab & _ & -> & Hseg & _).
  assert (Hn : num_segments c' = (num_segments c + 1)%N).
  { unfold num_segments. rewrite Hseg, length_app. cbn. lia. }
  assert (Hget : get_segment c' (num_segments c) = Ok cab).
  { rewrite get_segment_lookup, Hseg. unfold num_segments.
    rewrite Nat2N.id, list_lookup_middle by reflexivity. reflexivity. }
  split; [reflexivity|]. split; [exact Hn|]. split; [exact Hget|].
  split; [|split].
  - unfold get_cable. by rewrite Hget, Hcab.
  - intros i Hi. rewrite !get_segment_lookup, Hseg.
    unfold num_segments in Hi. rewrite lookup_app_l by lia. reflexivity.
  - rewrite get_segment_lookup. unfold num_segments.
    rewrite Nat2N.id, lookup_ge_None_2 by lia. reflexivity.
Qed.

Lemma add_cable_then_lookup_witness :
  add_cable new_cable_cell 0 (cable_segment [1; 2]%Q)
  = Ok ({| segments_ := [placeholder_segment; cable_segment [1; 2]%Q];
           parents_ := [0; 0]%N |}, cable_segment [1; 2]%Q)
  /\ get_cable {| segments_ := [placeholder_segment; cable_segment [1; 2]%Q];
                  parents_ := [0; 0]%N |} 1
     = Ok (cable_segment [1; 2]%Q).
Proof.
  split; [reflexivity|].
  exact (proj1 (proj2 (proj2 (proj2
    (add_cable_then_lookup new_cable_cell _ 0 (cable_segment [1; 2]%Q) _
       eq_refl))))).
Defined.

(** X6. On every cell built by [add_soma] and [add_cable] calls,
    [cable(index)] succeeds exactly for [1 <= index < num_segments()]:
    index 0 is never a cable (it throws "segment is not a cable segment")
    and [soma()] never throws. *)
Theorem built_cell_cables (ops : list build_op) (c : cable_cell) :
  apply_ops new_cable_cell ops = Ok c ->
  (forall i, (exists s, get_cable c i = Ok s)
             <-> (1 <= i < num_segments c)%N)
  /\ get_cable c 0
     = Err (cable_cell_error_what "segment is not a cable segment")
  /\ (forall i, (num_segments c <= i)%N ->
        get_cable c i = Err (cable_cell_error_what "no such segment"))
  /\ (exists o, soma c = Ok o).
Proof.
  intros Hops.
  destruct (built_cell_well_shaped_aux ops c Hops)
    as (_ & (s0 & rest & Hseg & Hs0 & Hrest) & _).
  assert (H0 : get_cable c 0
               = Err (cable_cell_error_what "segment is not a cable segment")).
  { unfold get_cable. rewrite get_segment_lookup, Hseg.
    change ((s0 :: rest) !! N.to_nat 0) with (Some s0). cbv beta iota.
    by rewrite Hs0. }
  assert (Hout : forall i, (num_segments c <= i)%N ->
             get_cable c i = Err (cable_cell_error_what "no such segment")).
  { intros i Hi. unfold get_cable. rewrite get_segment_lookup.
    unfold num_segments in Hi. rewrite lookup_ge_None_2 by lia. reflexivity. }
  split; [|split; [exact H0|split; [exact Hout|]]].
  - intros i. split.
    + intros [s Hs]. destruct (N.eq_dec i 0%N) as [->|Hne]; [congruence|].
      destruct (N.le_gt_cases (num_segments c) i) as [Hge|Hlt]; [|lia].
      rewrite (Hout i Hge) in Hs. discriminate.
    + intros [H1 Hlt]. unfold get_cable. rewrite get_segment_lookup, Hseg.
      unfold num_segments in Hlt. rewrite Hseg in Hlt. cbn in Hlt.
      destruct (N.to_nat i) as [|k] eqn:Hk; [lia|].
      destruct (lookup_lt_is_Some_2 rest k) as [s Hs]; [lia|].
      change ((s0 :: rest) !! S k) with (rest !! k). rewrite Hs.
      pose proof (proj1 (Forall_lookup _ _) Hrest k s Hs) as Hc.
      cbv beta iota. cbn beta in Hc. rewrite Hc. by exists s.
  - unfold soma, has_soma. rewrite get_segment_lookup, Hseg.
    change ((s0 :: rest) !! N.to_nat 0) with (Some s0). cbv beta iota.
    destruct (is_placeholder s0); cbn [negb]; by eexists.
Qed.

Lemma built_cell_cables_witness :
  apply_ops new_cable_cell example_ops = Ok example_cell
  /\ (exists s, get_cable example_cell 2 = Ok s)
  /\ get_cable example_cell 0
     = Err (cable_cell_error_what "segment is not a cable segment").
Proof.
  split; [reflexivity|].
  destruct (built_cell_cables example_ops example_cell eq_refl)
    as (Hiff & H0 & _).
  split; [|exact H0]. apply Hiff. unfold num_segments. cbn. lia.
Defined.

(** X7. [add_stimulus] checks its location: it throws "no such segment"
    exactly when the location's segment index is not below
    [num_segments()], and otherwise appends the stimulus and changes
    nothing else.  [add_detector] performs no check: it appends the
    detector whatever the segment index. *)
Theorem stimulus_checked_detector_unchecked (d : decorated_cell)
    (loc : segment_location) (stim : i_clamp) (threshold : Q) :
  ((num_segments (cell d) <= loc_segment loc)%N ->
     add_stimulus d loc stim
     = Err (cable_cell_error_what "no such segment"))
  /\ ((loc_segment loc < num_segments (cell d))%N ->
        add_stimulus d loc stim
        = Ok {| cell := cell d;
                stimuli_ := stimuli_ d ++ [(loc, stim)];
                spike_detectors_ := spike_detectors_ d |})
  /\ spike_detectors_ (add_detector d loc threshold)
     = spike_detectors_ d ++ [(loc, threshold)]
  /\ cell (add_detector d loc threshold) = cell d
  /\ stimuli_ (add_detector d loc threshold) = stimuli_ d.
Proof.
  split; [|split; [|by repeat split]].
  - intros Hge. unfold add_stimulus. rewrite get_segment_lookup.
    unfold num_segments in Hge. rewrite lookup_ge_None_2 by lia. reflexivity.
  - intros Hlt. unfold add_stimulus.
    destruct (proj2 (get_segment_in_range (cell d) (loc_segment loc)) Hlt)
      as [s Hs].
    by rewrite Hs.
Qed.

End CableCellOpsFacts.

(* ================================================================== *)
(** * Whole runs of the driver *)

Module RunFacts.
Import Driver DriverTrace DriverFacts.

Section Generic.
Context {T : Type} `{TimeOps T}.

(** A run that returns has made some number [m] of iterations: the
    guard held before each of them and failed after the last. *)
Lemma run_loop_returns (n : nat) (tfinal dt delta : T) :
  forall (fuel : nat) (t : T) (tr : list (call T)) res,
    run_loop fuel n tfinal dt delta t tr = Some res ->
    exists m,
      m <= fuel
      /\ (forall j, j < m -> t_ltb (t_after delta j t) tfinal = true)
      /\ t_ltb (t_after delta m t) tfinal = false
      /\ res = (t_after delta m t,
                tr ++ concat ((fun j => epoch_calls n dt
                                 (std_min (t_add (t_after delta j t) delta)
                                    tfinal))
                              <$> seq 0 m)).
Proof.
  induction fuel as [|fuel IH]; intros t tr res Hres.
  - cbn in Hres. destruct (t_ltb t tfinal) eqn:E; [discriminate|].
    injection Hres as <-. exists 0. split; [lia|]. split; [intros j; lia|].
    split; [exact E|]. cbn. by rewrite app_nil_r.
  - cbn [run_loop] in Hres. destruct (t_ltb t tfinal) eqn:E.
    + apply IH in Hres as (m & Hm & Hlt & Hge & ->).
      exists (S m). split; [lia|]. split; [|split; [exact Hge|]].
      * intros [|j] Hj; [exact E|]. apply Hlt. lia.
      * cbn [seq fmap list_fmap concat t_after].
        rewrite <- fmap_S_seq, <- list_fmap_compose, <- app_assoc.
        reflexivity.
    + injection Hres as <-. exists 0. split; [lia|]. split; [intros j; lia|].
      split; [exact E|]. cbn. by rewrite app_nil_r.
Qed.

Lemma calls_of_group_app (i : nat) (l1 l2 : list (call T)) :
  calls_of_group i (l1 ++ l2) = calls_of_group i l1 ++ calls_of_group i l2.
Proof.
  induction l1 as [|c l1 IH]; [reflexivity|].
  cbn. destruct (on_group i c); cbn; by rewrite IH.
Qed.

Lemma calls_of_group_concat (i : nat) (ls : list (list (call T))) :
  calls_of_group i (concat ls) = concat (calls_of_group i <$> ls).
Proof.
  induction ls as [|l ls IH]; [reflexivity|].
  cbn. by rewrite calls_of_group_app, IH.
Qed.

Lemma calls_of_group_epoch (n i : nat) (dt tend : T) :
  calls_of_group i (epoch_calls n dt tend)
  = if decide (i < n) then group_task tend dt i else [].
Proof.
  unfold epoch_calls. rewrite calls_of_group_app. cbn. rewrite app_nil_r.
  rewrite (interleaving_projection
             (parallel_for_tasks 0 n (group_task tend dt))).
  - rewrite parallel_for_tasks_lookup. by destruct (decide (i < n)).
  - apply (interleaving_concat _ []). constructor.
  - intros k t c Hk Hc. rewrite parallel_for_tasks_lookup in Hk.
    destruct (decide (k < n)); [|discriminate]. injection Hk as <-.
    unfold group_task in Hc.
    repeat (apply elem_of_cons in Hc as [->|Hc]; [reflexivity|]).
    by apply elem_of_nil in Hc.
Qed.

Lemma count_exchanges_app (l1 l2 : list (call T)) :
  count_exchanges (l1 ++ l2) = count_exchanges l1 + count_exchanges l2.
Proof.
  induction l1 as [|c l1 IH]; [reflexivity|].
  destruct c; cbn; rewrite IH; reflexivity.
Qed.

Lemma count_exchanges_tasks (n first : nat) (dt tend : T) :
  count_exchanges (concat (group_task tend dt <$> seq first n)) = 0.
Proof.
  revert first. induction n as [|n IH]; intros first; [reflexivity|].
  cbn. apply IH.
Qed.

Lemma count_exchanges_epochs {A} (n : nat) (dt : T) (tend : A -> T)
    (ends : list A) :
  count_exchanges (concat ((fun j => epoch_calls n dt (tend j)) <$> ends))
  = length ends.
Proof.
  induction ends as [|e ends IH]; [reflexivity|].
  cbn [fmap list_fmap concat length]. rewrite count_exchanges_app, IH.
  unfold epoch_calls, parallel_for, parallel_for_tasks.
  rewrite count_exchanges_app, count_exchanges_tasks. reflexivity.
Qed.

Lemma advance_targets_app (i : nat) (l1 l2 : list (call T)) :
  advance_targets i (l1 ++ l2) = advance_targets i l1 ++ advance_targets i l2.
Proof.
  induction l1 as [|c l1 IH]; [reflexivity|].
  destruct c; cbn; try destruct (Nat.eqb i group); cbn; rewrite ?IH;
    reflexivity.
Qed.

Lemma advance_targets_group (i : nat) (tr : list (call T)) :
  advance_targets i (calls_of_group i tr) = advance_targets i tr.
Proof.
  induction tr as [|c tr IH]; [reflexivity|].
  destruct c as [g|g tend dt|g|g|]; cbn [calls_of_group]; unfold on_group;
    cbn [group_of]; try (destruct (Nat.eqb i g) eqn:E); cbn; rewrite ?E, ?IH;
    reflexivity.
Qed.

Lemma advance_targets_task (i k : nat) (tend dt : T) :
  advance_targets i (group_task tend dt k) = if Nat.eqb i k then [tend] else [].
Proof. cbn. by destruct (Nat.eqb i k). Qed.

Lemma advance_targets_epochs {A} (n i : nat) (dt : T) (tend : A -> T)
    (l : list A) :
  i < n ->
  advance_targets i (concat ((fun j => epoch_calls n dt (tend j)) <$> l))
  = tend <$> l.
Proof.
  intros Hi. induction l as [|j l IH]; [reflexivity|].
  cbn [fmap list_fmap concat]. rewrite advance_targets_app, IH.
  rewrite <- advance_targets_group, calls_of_group_epoch.
  rewrite decide_True by assumption.
  rewrite advance_targets_task, Nat.eqb_refl. reflexivity.
Qed.

(** X8. Whatever the arithmetic, a run that returns has made some number
    [m] of iterations, at most the fuel: the local [t] is the [m]-fold
    sum of [delta] and is not below [tfinal]; the trace is [m] epochs with
    one [exchange] each; every local group received, [m] times over, the
    calls [enqueue_events], [advance], [add_spikes], [clear_spikes], with
    the same end time in every group; groups that are not local received
    nothing. *)
Theorem completed_run_structure (fuel n : nat) (min_delay tfinal dt t : T)
    (tr : list (call T)) :
  run fuel n min_delay tfinal dt = Some (t, tr) ->
  exists m,
    m <= fuel
    /\ t = t_at (std_min min_delay tfinal) m
    /\ t_ltb t tfinal = false
    /\ (forall j, j < m ->
          t_ltb (t_at (std_min min_delay tfinal) j) tfinal = true)
    /\ count_exchanges tr = m
    /\ (forall i, i < n ->
          calls_of_group i tr
          = concat ((fun j => group_task
                                (epoch_end tfinal (std_min min_delay tfinal) j)
                                dt i) <$> seq 0 m))
    /\ (forall i, i < n ->
          advance_targets i tr
          = epoch_end tfinal (std_min min_delay tfinal) <$> seq 0 m)
    /\ (forall i, n <= i -> calls_of_group i tr = []).
Proof.
  unfold run. intros Hrun.
  apply run_loop_returns in Hrun as (m & Hm & Hlt & Hge & Hres).
  injection Hres as -> ->. exists m. fold (t_at (std_min min_delay tfinal) m).
  set (delta := std_min min_delay tfinal) in *.
  assert (Hcalls : forall i,
            calls_of_group i
              (concat ((fun j => epoch_calls n dt
                          (std_min (t_add (t_after delta j t_zero) delta)
                             tfinal)) <$> seq 0 m))
            = concat ((fun j => if decide (i < n)
                                then group_task (epoch_end tfinal delta j) dt i
                                else []) <$> seq 0 m)).
  { intros i. rewrite calls_of_group_concat, <- list_fmap_compose.
    f_equal. apply list_fmap_ext. intros _ j _. cbn.
    apply calls_of_group_epoch. }
  split; [exact Hm|]. split; [reflexivity|]. split; [exact Hge|].
  split; [exact Hlt|]. cbn [app]. split; [|split; [|split]].
  - by rewrite count_exchanges_epochs, length_seq.
  - intros i Hi. rewrite Hcalls. f_equal. apply list_fmap_ext.
    intros _ j _. by rewrite decide_True.
  - intros i Hi. by rewrite advance_targets_epochs.
  - intros i Hi. rewrite Hcalls. clear Hcalls Hlt Hge Hm.
    induction (seq 0 m) as [|j l IH]; [reflexivity|].
    cbn [fmap list_fmap concat]. rewrite IH.
    by rewrite decide_False by lia.
Qed.

End Generic.

Lemma completed_run_structure_witness :
  run 4 2 5%float 17%float 0.125%float
  = Some (20%float,
          concat (epoch_calls 2 0.125%float <$> [5; 10; 15; 17]%float))
  /\ exists m,
       m <= 4
       /\ count_exchanges
            (concat (epoch_calls 2 0.125%float <$> [5; 10; 15; 17]%float)) = m
       /\ advance_targets 1
            (concat (epoch_calls 2 0.125%float <$> [5; 10; 15; 17]%float))
          = epoch_end 17%float (std_min 5%float 17%float) <$> seq 0 m.
Proof.
  assert (Hrun : run 4 2 5%float 17%float 0.125%float
                 = Some (20%float,
                         concat (epoch_calls 2 0.125%float
                                   <$> [5; 10; 15; 17]%float))).
  { reflexivity. }
  split; [exact Hrun|].
  destruct (completed_run_structure 4 2 5%float 17%float 0.125%float _ _ Hrun)
    as (m & Hm & _ & _ & _ & Hex & _ & Hadv & _).
  exists m. split; [exact Hm|]. split; [exact Hex|].
  apply Hadv. lia.
Defined.

(** X9. A minimum delay that is not positive hangs the driver: with
    [min_delay <= 0 < tfinal], [delta] is not positive, [t] never reaches
    [tfinal], and the loop runs out of every fuel. *)
Theorem run_hangs_without_positive_delay (n : nat)
    (min_delay tfinal dt : Q) :
  (min_delay <= 0)%Q -> (0 < tfinal)%Q ->
  forall fuel, run fuel n min_delay tfinal dt = None.
Proof.
  intros Hd Hf fuel. unfold run. apply run_loop_out_of_fuel.
  intros j _. apply guard_Q.
  destruct (CommunicatorFacts.std_min_Q min_delay tfinal) as (_ & Hle & _).
  assert (Hj : (0 <= inject_Z (Z.of_nat j))%Q).
  { change 0%Q with (inject_Z 0). rewrite <- Zle_Qle. lia. }
  assert (Hp : (inject_Z (Z.of_nat j) * std_min min_delay tfinal <= 0)%Q).
  { nra. }
  lra.
Qed.

Lemma run_hangs_without_positive_delay_witness :
  (0 <= 0)%Q /\ (0 < 17)%Q /\ run 1000 3 0%Q 17%Q (1 # 8)%Q = None.
Proof.
  split; [discriminate|]. split; [reflexivity|].
  assert (H0 : (0 <= 0)%Q) by discriminate.
  exact (run_hangs_without_positive_delay 3 0 17 (1 # 8) H0 eq_refl 1000).
Defined.

Lemma scaled_succ (delta : Q) (j : nat) :
  (inject_Z (Z.of_nat (S j)) * delta
   == inject_Z (Z.of_nat j) * delta + delta)%Q.
Proof. rewrite Nat2Z.inj_succ. unfold Z.succ. rewrite inject_Z_plus. ring. Qed.

(** C4. A run of the driver that returns has made a sequence of epochs,
    one per loop iteration, and its trace is their concatenation.  Epoch
    [j] is the body of iteration [j] with end time
    [tend = min(t + delta, tfinal)]: it ends with its single [exchange]
    call, and before that call every locally owned group [i] has
    received, in this order, [enqueue_events] (drain the group's event
    queue into the group), [advance] to [tend], [add_spikes] (forward the
    group's spikes to the spike buffer) and [clear_spikes], and no other
    call; groups that are not local receive none.  The same holds for
    every other order in which the threads of the parallel loop may
    interleave the groups' tasks of that epoch. *)
Theorem run_epochs_in_scheduler_order {T} `{TimeOps T} (fuel n : nat)
    (min_delay tfinal dt t : T) (tr : list (call T)) :
  run fuel n min_delay tfinal dt = Some (t, tr) ->
  let delta := std_min min_delay tfinal in
  exists epochs : list (list (call T)),
    tr = concat epochs
    /\ length epochs <= fuel
    /\ t = t_at delta (length epochs)
    /\ forall j ep, epochs !! j = Some ep ->
         let tend := epoch_end tfinal delta j in
         ep = epoch_calls n dt tend
         /\ t_ltb (t_at delta j) tfinal = true
         /\ (exists par,
               ep = par ++ [exchange]
               /\ (exchange ∉ par)
               /\ (forall i, i < n ->
                     calls_of_group i par =
                     [enqueue_events i; advance i tend dt; add_spikes i;
                      clear_spikes i])
               /\ (forall i, n <= i -> calls_of_group i par = []))
         /\ (forall ep', epoch_schedule n tend dt ep' ->
               exists par,
                 ep' = par ++ [exchange]
                 /\ (exchange ∉ par)
                 /\ (forall i, i < n ->
                       calls_of_group i par =
                       [enqueue_events i; advance i tend dt; add_spikes i;
                        clear_spikes i])
                 /\ (forall i, n <= i -> calls_of_group i par = [])).
Proof.
  intros Hrun delta. unfold run in Hrun. fold delta in Hrun.
  destruct (run_loop_returns n tfinal dt delta fuel t_zero [] (t, tr) Hrun)
    as (m & Hm & Hlt & _ & Hres).
  exists ((fun j => epoch_calls n dt (epoch_end tfinal delta j)) <$> seq 0 m).
  rewrite length_fmap, length_seq.
  split; [exact (f_equal snd Hres)|]. split; [exact Hm|].
  split; [exact (f_equal fst Hres)|].
  intros j ep Hj tend. rewrite list_lookup_fmap in Hj.
  destruct (seq 0 m !! j) as [j'|] eqn:Hseq; [|discriminate].
  apply lookup_seq in Hseq as [-> Hjm]. cbn in Hj. injection Hj as <-.
  fold tend.
  split; [reflexivity|]. split; [exact (Hlt j Hjm)|]. split.
  - apply scheduler_epoch_order. apply epoch_calls_schedule.
  - intros ep'. apply scheduler_epoch_order.
Qed.

Lemma run_epochs_in_scheduler_order_witness :
  run 4 2 5%float 17%float 0.125%float
  = Some (20%float,
          concat (epoch_calls 2 0.125%float <$> [5; 10; 15; 17]%float))
  /\ exists epochs : list (list (call float)),
       concat (epoch_calls 2 0.125%float <$> [5; 10; 15; 17]%float)
       = concat epochs
       /\ 20%float = t_at 5%float (length epochs)
       /\ forall j ep, epochs !! j = Some ep ->
            exists par,
              ep = par ++ [exchange]
              /\ (exchange ∉ par)
              /\ (forall i, i < 2 ->
                    calls_of_group i par =
                    [enqueue_events i;
                     advance i (epoch_end 17%float 5%float j) 0.125%float;
                     add_spikes i; clear_spikes i])
              /\ (forall i, 2 <= i -> calls_of_group i par = []).
Proof.
  assert (Hrun : run 4 2 5%float 17%float 0.125%float
                 = Some (20%float,
                         concat (epoch_calls 2 0.125%float
                                   <$> [5; 10; 15; 17]%float))).
  { reflexivity. }
  split; [exact Hrun|].
  destruct (run_epochs_in_scheduler_order 4 2 5%float 17%float 0.125%float
              _ _ Hrun) as (epochs & Htr & _ & Ht & Hep).
  exists epochs. split; [exact Htr|]. split; [exact Ht|].
  intros j ep Hj. destruct (Hep j ep Hj) as (_ & _ & Hpar & _). exact Hpar.
Defined.

End RunFacts.

(* ================================================================== *)
(** * The driver in binary64 *)

Module Binary64Facts.
Import Driver DriverTrace Binary64 DriverFacts RunFacts.

(** ** Order and values of finite binary64 numbers *)

Lemma digits2_pos_bounds (m : positive) :
  (2 ^ (Z.pos (digits2_pos m) - 1) <= Z.pos m < 2 ^ Z.pos (digits2_pos m))%Z.
Proof.
  induction m as [m IH|m IH|]; cbn [digits2_pos].
  - rewrite Pos2Z.inj_succ.
    replace (Z.succ (Z.pos (digits2_pos m)) - 1)%Z
      with (Z.succ (Z.pos (digits2_pos m) - 1)) by lia.
    rewrite !Z.pow_succ_r by lia. lia.
  - rewrite Pos2Z.inj_succ.
    replace (Z.succ (Z.pos (digits2_pos m)) - 1)%Z
      with (Z.succ (Z.pos (digits2_pos m) - 1)) by lia.
    rewrite !Z.pow_succ_r by lia. lia.
  - cbn. lia.
Qed.

(** A mantissa and exponent of the format: the exponent is at least
    -1074, the mantissa has at most 53 bits, and exactly 53 unless the
    number is subnormal. *)
Lemma bounded_mantissa (m : positive) (e : Z) :
  bounded prec emax m e = true ->
  (-1074 <= e)%Z /\ (Z.pos m < 2 ^ 53)%Z
  /\ ((-1074 < e)%Z -> (2 ^ 52 <= Z.pos m)%Z).
Proof.
  unfold bounded, canonical_mantissa, fexp, SpecFloat.emin.
  intros Hb. apply andb_prop in Hb as [Hc _].
  apply Z.eqb_eq in Hc.
  change prec with 53%Z in Hc. change emax with 1024%Z in Hc.
  pose proof (digits2_pos_bounds m) as [Hlo Hhi].
  assert (Hd : (Z.pos (digits2_pos m) <= 53)%Z) by lia.
  split; [lia|]. split.
  - eapply Z.lt_le_trans; [exact Hhi|]. apply Z.pow_le_mono_r; lia.
  - intros He. assert (Z.pos (digits2_pos m) = 53%Z) as Hd53 by lia.
    rewrite Hd53 in Hlo. exact Hlo.
Qed.

Lemma finite_valid (x : float) (s : bool) (m : positive) (e : Z) :
  Prim2SF x = S754_finite s m e ->
  (-1074 <= e)%Z /\ (Z.pos m < 2 ^ 53)%Z
  /\ ((-1074 < e)%Z -> (2 ^ 52 <= Z.pos m)%Z).
Proof.
  intros Hx. pose proof (Prim2SF_valid x) as Hv. rewrite Hx in Hv.
  apply bounded_mantissa. exact Hv.
Qed.

Lemma scaled_lt (m1 m2 : positive) (e1 e2 : Z) :
  (-1074 <= e1 < e2)%Z -> (Z.pos m1 < 2 ^ 53)%Z -> (2 ^ 52 <= Z.pos m2)%Z ->
  (Z.pos m1 * 2 ^ (e1 + 1074) < Z.pos m2 * 2 ^ (e2 + 1074))%Z.
Proof.
  intros He H1 H2.
  assert (HA : (0 < 2 ^ (e1 + 1074))%Z) by (apply Z.pow_pos_nonneg; lia).
  assert (HB : (2 * 2 ^ (e1 + 1074) <= 2 ^ (e2 + 1074))%Z).
  { rewrite <- Z.pow_succ_r by lia. apply Z.pow_le_mono_r; lia. }
  change (2 ^ 53)%Z with (2 * 2 ^ 52)%Z in H1.
  generalize dependent (2 ^ (e1 + 1074))%Z.
  generalize dependent (2 ^ (e2 + 1074))%Z.
  generalize dependent (2 ^ 52)%Z.
  intros. nia.
Qed.

(** On finite, non-negative binary64 numbers [<] is the order of the
    values. *)
Lemma ltb_ulps (x y : float) :
  finite64 x = true -> finite64 y = true ->
  (0 <= ulps x)%Z -> (0 <= ulps y)%Z ->
  (x <? y)%float = (ulps x <? ulps y)%Z.
Proof.
  unfold finite64, ulps. rewrite ltb_spec.
  destruct (Prim2SF x) as [sx|sx| |sx mx ex] eqn:Ex; try discriminate;
  destruct (Prim2SF y) as [sy|sy| |sy my ey] eqn:Ey; try discriminate;
  intros _ _ Hx Hy.
  - reflexivity.
  - destruct (finite_valid _ _ _ _ Ey) as (He & _ & _).
    assert (0 < 2 ^ (ey + 1074))%Z by (apply Z.pow_pos_nonneg; lia).
    destruct sy; cbn zeta in *; [lia|].
    unfold SFltb, SFcompare. symmetry. apply Z.ltb_lt. lia.
  - destruct (finite_valid _ _ _ _ Ex) as (He & _ & _).
    assert (0 < 2 ^ (ex + 1074))%Z by (apply Z.pow_pos_nonneg; lia).
    destruct sx; cbn zeta in *; [lia|].
    unfold SFltb, SFcompare. symmetry. apply Z.ltb_ge. lia.
  - destruct (finite_valid _ _ _ _ Ex) as (Hex & Hmx & Hnx).
    destruct (finite_valid _ _ _ _ Ey) as (Hey & Hmy & Hny).
    assert (0 < 2 ^ (ex + 1074))%Z by (apply Z.pow_pos_nonneg; lia).
    assert (0 < 2 ^ (ey + 1074))%Z by (apply Z.pow_pos_nonneg; lia).
    destruct sx; cbn zeta in *; [lia|].
    destruct sy; cbn zeta in *; [lia|].
    unfold SFltb, SFcompare.
    destruct (Z.compare_spec ex ey) as [->|Hlt|Hgt].
    + change (Pos.compare_cont Eq mx my) with (Pos.compare mx my).
      destruct (Pos.compare_spec mx my) as [->|Hm|Hm]; symmetry.
      * apply Z.ltb_irrefl.
      * apply Z.ltb_lt. apply Z.mul_lt_mono_pos_r; [assumption|lia].
      * apply Z.ltb_ge. apply Z.mul_le_mono_nonneg_r; lia.
    + symmetry. apply Z.ltb_lt.
      apply scaled_lt; [lia|assumption|apply Hny; lia].
    + symmetry. apply Z.ltb_ge. apply Z.lt_le_incl.
      apply scaled_lt; [lia|assumption|apply Hnx; lia].
Qed.

Lemma value64_lt (x y : float) :
  (value64 x < value64 y)%Q <-> (ulps x < ulps y)%Z.
Proof.
  unfold value64, Qlt. cbn [Qnum Qden].
  symmetry. apply Z.mul_lt_mono_pos_r. reflexivity.
Qed.

Lemma value64_nonneg (x : float) :
  (0 <= value64 x)%Q <-> (0 <= ulps x)%Z.
Proof.
  unfold value64, Qle. cbn [Qnum Qden]. lia.
Qed.

Lemma ltb_value64 (x y : float) :
  finite64 x = true -> finite64 y = true ->
  (0 <= value64 x)%Q -> (0 <= value64 y)%Q ->
  (x <? y)%float = Qltb (value64 x) (value64 y).
Proof.
  intros Hfx Hfy Hx Hy. apply value64_nonneg in Hx, Hy.
  rewrite (ltb_ulps x y Hfx Hfy Hx Hy).
  destruct (Qltb (value64 x) (value64 y)) eqn:E.
  - apply Qltb_lt, value64_lt in E. apply Z.ltb_lt. exact E.
  - apply Z.ltb_ge. apply Qltb_ge in E.
    destruct (Z.lt_ge_cases (ulps x) (ulps y)) as [Hlt|Hge]; [|exact Hge].
    apply value64_lt in Hlt. lra.
Qed.

(** [std::min] on finite, non-negative doubles picks the value that
    [std::min] on their values picks. *)
Lemma std_min_value64 (a b : float) :
  finite64 a = true -> finite64 b = true ->
  (0 <= value64 a)%Q -> (0 <= value64 b)%Q ->
  finite64 (std_min a b) = true
  /\ value64 (std_min a b) = std_min (value64 a) (value64 b).
Proof.
  intros Hfa Hfb Ha Hb. unfold std_min. cbn [t_ltb binary64_time Q_time].
  rewrite (ltb_value64 b a Hfb Hfa Hb Ha).
  destruct (Qltb (value64 b) (value64 a)); split; auto.
Qed.

(** ** The loop while no sum is rounded *)

Lemma t_after_succ {T} `{TimeOps T} (delta : T) (j : nat) :
  forall t, t_after delta (S j) t = t_add (t_after delta j t) delta.
Proof.
  induction j as [|j IH]; intros t; [reflexivity|].
  change (t_after delta (S (S j)) t) with (t_after delta (S j) (t_add t delta)).
  rewrite IH. reflexivity.
Qed.

Lemma scaled_nonneg (j : nat) (d : Q) :
  (0 <= d)%Q -> (0 <= inject_Z (Z.of_nat j) * d)%Q.
Proof.
  intros Hd. apply Qmult_le_0_compat; [|exact Hd].
  change 0%Q with (inject_Z 0). rewrite <- Zle_Qle. lia.
Qed.

(** While the sums are exact, [t] is a multiple of [delta]. *)
Lemma t_at_value64 (delta : float) (m : nat) :
  (forall j, j < m -> exact_add (t_at delta j) delta) ->
  forall j, j <= m ->
    finite64 (t_at delta j) = true
    /\ (value64 (t_at delta j) == inject_Z (Z.of_nat j) * value64 delta)%Q.
Proof.
  intros Hex. induction j as [|j IH]; intros Hj.
  - split; [reflexivity|].
    change (t_at delta 0) with 0%float.
    assert (H0 : (value64 0 == 0)%Q) by reflexivity.
    rewrite H0. change (inject_Z (Z.of_nat 0)) with 0%Q. ring.
  - destruct (IH ltac:(lia)) as [_ Hv].
    destruct (Hex j ltac:(lia)) as [Hfin Hsum].
    unfold t_at in *. rewrite t_after_succ. cbn [t_add binary64_time].
    split; [exact Hfin|]. rewrite Hsum, Hv. symmetry. apply scaled_succ.
Qed.

(** The loop guard in binary64 is the guard on the values. *)
Lemma guard_value64 (delta tfinal : float) (m : nat) :
  finite64 tfinal = true -> (0 <= value64 tfinal)%Q ->
  (0 <= value64 delta)%Q ->
  (forall j, j < m -> exact_add (t_at delta j) delta) ->
  forall j, j <= m ->
    t_ltb (t_after delta j t_zero) tfinal
    = Qltb (inject_Z (Z.of_nat j) * value64 delta) (value64 tfinal).
Proof.
  intros Hft Hf Hd Hex j Hj.
  destruct (t_at_value64 delta m Hex j Hj) as [Hfj Hvj].
  fold (t_at delta j). cbn [t_ltb binary64_time].
  pose proof (scaled_nonneg j _ Hd) as Hnn.
  rewrite ltb_value64; [|assumption|assumption|lra|assumption].
  destruct (Qltb (inject_Z (Z.of_nat j) * value64 delta) (value64 tfinal))
    eqn:E.
  - apply Qltb_lt. apply Qltb_lt in E. lra.
  - apply Qltb_ge. apply Qltb_ge in E. lra.
Qed.

(** The end time of an epoch whose sum [t + delta] is exact. *)
Lemma epoch_end_value64 (delta tfinal : float) (j : nat) :
  finite64 tfinal = true -> (0 <= value64 tfinal)%Q ->
  (0 <= value64 delta)%Q ->
  (forall k, k <= j -> exact_add (t_at delta k) delta) ->
  value64 (epoch_end tfinal delta j)
  = std_min (value64 (t_at delta j + delta)) (value64 tfinal)
  /\ (value64 (t_at delta j + delta)
      == inject_Z (Z.of_nat (S j)) * value64 delta)%Q.
Proof.
  intros Hft Hf Hd Hex.
  assert (Hex' : forall k, k < S j -> exact_add (t_at delta k) delta).
  { intros k Hk. apply Hex. lia. }
  destruct (t_at_value64 delta (S j) Hex' j ltac:(lia)) as [Hfj Hvj].
  destruct (Hex j (le_n j)) as [Hfs Hsum].
  assert (Hs : (value64 (t_at delta j + delta)
                == inject_Z (Z.of_nat (S j)) * value64 delta)%Q).
  { rewrite Hsum, Hvj. symmetry. apply scaled_succ. }
  split; [|exact Hs].
  unfold epoch_end. cbn [t_add binary64_time].
  apply std_min_value64; try assumption.
  rewrite Hs. apply scaled_nonneg. exact Hd.
Qed.

(** C2 (amended).  In binary64, for finite [tfinal > 0] and
    [min_delay > 0], [delta = min(min_delay, tfinal)] is positive, and
    when none of the sums [t + delta] that the loop computes is rounded,
    the loop terminates after exactly [ceil (tfinal / min_delay)]
    iterations: that much fuel gives a result, less runs out.  Iteration
    [j] starts at [j * min_delay], has positive length at most
    [min_delay], ends at [(j+1) * min_delay] when it is not the last one
    and at [tfinal] when it is (the final step may be shorter). *)
Theorem run_terminates_when_sums_exact (n : nat)
    (min_delay tfinal dt : float) :
  finite64 tfinal = true -> finite64 min_delay = true ->
  (0 < value64 tfinal)%Q -> (0 < value64 min_delay)%Q ->
  let steps := Z.to_nat (Qceiling (value64 tfinal / value64 min_delay)) in
  let delta := std_min min_delay tfinal in
  (forall j, j < steps -> exact_add (t_at delta j) delta) ->
  (0 < value64 delta)%Q
  /\ (forall fuel, steps <= fuel ->
        run fuel n min_delay tfinal dt =
        Some (t_at delta steps,
              concat ((fun j => epoch_calls n dt (epoch_end tfinal delta j))
                      <$> seq 0 steps)))
  /\ (forall fuel, fuel < steps -> run fuel n min_delay tfinal dt = None)
  /\ (forall j, j < steps ->
        (value64 (t_at delta j) == inject_Z (Z.of_nat j) * value64 min_delay)%Q
        /\ (value64 (t_at delta j) < value64 (epoch_end tfinal delta j))%Q
        /\ (value64 (epoch_end tfinal delta j) - value64 (t_at delta j)
            <= value64 min_delay)%Q
        /\ (S j < steps ->
            (value64 (epoch_end tfinal delta j)
             == inject_Z (Z.of_nat (S j)) * value64 min_delay)%Q)
        /\ (S j = steps ->
            (value64 (epoch_end tfinal delta j) == value64 tfinal)%Q)).
Proof.
  intros Hft Hfd Hf Hd steps delta Hex.
  destruct (std_min_value64 min_delay tfinal Hfd Hft ltac:(lra) ltac:(lra))
    as [Hfdelta Hvdelta].
  fold delta in Hfdelta, Hvdelta.
  destruct (steps_guards (value64 min_delay) (value64 tfinal) Hf Hd)
    as (Hs1 & Hdpos & Hdle & Hdeq & Hlt & Hge).
  fold steps in Hs1, Hdeq, Hlt, Hge.
  rewrite <- Hvdelta in Hdpos, Hdle, Hdeq, Hlt, Hge.
  pose proof (guard_value64 delta tfinal steps Hft ltac:(lra) ltac:(lra) Hex)
    as Hguard.
  split; [exact Hdpos|]. split; [|split].
  - intros fuel Hfuel. unfold run. fold delta.
    apply (run_loop_unroll n tfinal dt delta steps fuel t_zero []).
    + intros j Hj. rewrite Hguard by lia. apply Qltb_lt. auto.
    + rewrite Hguard by lia. apply Qltb_ge. exact Hge.
    + exact Hfuel.
  - intros fuel Hfuel. unfold run. fold delta.
    apply run_loop_out_of_fuel. intros j Hj. rewrite Hguard by lia.
    apply Qltb_lt. apply Hlt. lia.
  - intros j Hj.
    destruct (t_at_value64 delta steps Hex j ltac:(lia)) as [_ Htj].
    assert (Hexj : forall k, k <= j -> exact_add (t_at delta k) delta).
    { intros k Hk. apply Hex. lia. }
    destruct (epoch_end_value64 delta tfinal j Hft ltac:(lra) ltac:(lra) Hexj)
      as [Hend Hsum].
    pose proof (Hlt j Hj) as Hltj.
    pose proof (scaled_succ (value64 delta) j) as HSj.
    assert (Hjd : (inject_Z (Z.of_nat j) * value64 delta
                   == inject_Z (Z.of_nat j) * value64 min_delay)%Q).
    { destruct (decide (1 < steps)) as [H1|H1].
      - rewrite (Hdeq H1). reflexivity.
      - assert (j = 0) as -> by lia.
        change (inject_Z (Z.of_nat 0)) with 0%Q. ring. }
    rewrite Hend. unfold std_min. cbn [t_ltb Q_time].
    destruct (Qltb (value64 tfinal) (value64 (t_at delta j + delta))) eqn:E.
    + apply Qltb_lt in E. split; [lra|]. split; [lra|]. split; [lra|]. split.
      * intros HS. pose proof (Hlt (S j) HS). lra.
      * intros _. reflexivity.
    + apply Qltb_ge in E. split; [lra|]. split; [lra|]. split; [lra|]. split.
      * intros HS. rewrite (Hdeq ltac:(lia)) in *. lra.
      * intros HS. rewrite <- HS in Hge. lra.
Qed.

Lemma run_terminates_when_sums_exact_witness :
  finite64 3.5 = true /\ finite64 1.5 = true
  /\ (0 < value64 3.5)%Q /\ (0 < value64 1.5)%Q
  /\ (forall j, j < 3 ->
        exact_add (t_at (std_min 1.5 3.5)%float j) (std_min 1.5 3.5)%float)
  /\ run 3 1 1.5%float 3.5%float 0.125%float
     = Some (t_at 1.5%float 3,
             concat ((fun j => epoch_calls 1 0.125%float
                                 (epoch_end 3.5%float 1.5%float j))
                     <$> seq 0 3))
  /\ run 2 1 1.5%float 3.5%float 0.125%float = None.
Proof.
  assert (Hex : forall j, j < 3 ->
            exact_add (t_at (std_min 1.5 3.5)%float j)
                      (std_min 1.5 3.5)%float).
  { intros j Hj. destruct j as [|[|[|j]]]; [| | |lia];
      (split; [vm_compute; reflexivity|vm_compute; reflexivity]). }
  split; [reflexivity|]. split; [reflexivity|].
  split; [reflexivity|]. split; [reflexivity|].
  split; [exact Hex|].
  pose proof (run_terminates_when_sums_exact 1 1.5%float 3.5%float
                0.125%float eq_refl eq_refl eq_refl eq_refl Hex)
    as (_ & Hrun & Hout & _).
  split.
  - exact (Hrun 3 (le_n 3)).
  - exact (Hout 2 (le_n 3)).
Defined.

(** C2 as stated fails in binary64.  With [min_delay = 0.1] (the double
    nearest to it) and [tfinal = 1.0] the ceiling of [tfinal / min_delay]
    is 10, but the tenth sum is 0.99999999999999989, still below
    [tfinal]: the guard holds before each of the first eleven
    iterations, ten iterations of fuel run out, and the loop returns
    after eleven, having called [exchange] eleven times. *)
Lemma run_tenth_makes_eleven_iterations :
  finite64 1 = true /\ finite64 0x1.999999999999ap-4 = true
  /\ (0 < value64 1)%Q /\ (0 < value64 0x1.999999999999ap-4)%Q
  /\ Z.to_nat (Qceiling (value64 1 / value64 0x1.999999999999ap-4)) = 10
  /\ (forall j, j <= 10 ->
        t_ltb (t_at (std_min 0x1.999999999999ap-4 1)%float j) 1%float = true)
  /\ run 10 1 0x1.999999999999ap-4%float 1%float 0.125%float = None
  /\ exists t tr,
       run 11 1 0x1.999999999999ap-4%float 1%float 0.125%float
       = Some (t, tr)
       /\ count_exchanges tr = 11.
Proof.
  split; [reflexivity|]. split; [reflexivity|].
  split; [reflexivity|]. split; [reflexivity|].
  split; [vm_compute; reflexivity|]. split; [|split].
  - intros j Hj.
    do 11 (destruct j as [|j]; [vm_compute; reflexivity|]). lia.
  - vm_compute. reflexivity.
  - eexists _, _. split; vm_compute; reflexivity.
Qed.

(** Rounding can also stop [t] from growing: [2^53 + 1] is rounded to
    [2^53], so once [t] is [2^53] the loop with [delta = 1] never
    reaches a larger [tfinal]. *)
Lemma loop_stalls_at_2_53 (fuel n : nat) (dt : float)
    (tr : list (call float)) :
  (0x1p+53 + 1 = 0x1p+53)%float
  /\ run_loop fuel n 0x1p+54%float dt 1%float 0x1p+53%float tr = None.
Proof.
  assert (Hsum : (0x1p+53 + 1 = 0x1p+53)%float) by reflexivity.
  split; [exact Hsum|].
  apply run_loop_out_of_fuel. intros j _.
  assert (Hj : t_after 1%float j 0x1p+53%float = 0x1p+53%float).
  { induction j as [|j IH]; [reflexivity|].
    cbn [t_after t_add binary64_time]. rewrite Hsum. exact IH. }
  rewrite Hj. reflexivity.
Qed.

(** X10. In binary64, with finite [tfinal > 0] and [min_delay > 0] and no
    sum [t + delta] of the loop rounded, every run that returns has
    advanced each local group through end times that are positive,
    strictly increasing, at most [min_delay] apart, never beyond
    [tfinal] and finally equal to [tfinal]; the local [t] ends in
    [[tfinal, tfinal + min_delay)]. *)
Theorem exact_advance_targets_increase_to_tfinal (fuel n i : nat)
    (min_delay tfinal dt t : float) (tr : list (call float)) :
  finite64 tfinal = true -> finite64 min_delay = true ->
  (0 < value64 tfinal)%Q -> (0 < value64 min_delay)%Q ->
  (forall j, j < Z.to_nat (Qceiling (value64 tfinal / value64 min_delay)) ->
     exact_add (t_at (std_min min_delay tfinal) j) (std_min min_delay tfinal)) ->
  i < n ->
  run fuel n min_delay tfinal dt = Some (t, tr) ->
  (value64 tfinal <= value64 t)%Q
  /\ (value64 t < value64 tfinal + value64 min_delay)%Q
  /\ Forall (fun e => (0 < value64 e)%Q /\ (value64 e <= value64 tfinal)%Q)
       (advance_targets i tr)
  /\ (forall k a b,
        advance_targets i tr !! k = Some a ->
        advance_targets i tr !! S k = Some b ->
        (value64 a < value64 b)%Q
        /\ (value64 b - value64 a <= value64 min_delay)%Q)
  /\ (exists e, last (advance_targets i tr) = Some e
                /\ (value64 e == value64 tfinal)%Q).
Proof.
  intros Hft Hfd Hf Hd Hex Hi Hrun.
  set (steps := Z.to_nat (Qceiling (value64 tfinal / value64 min_delay))) in *.
  set (delta := std_min min_delay tfinal) in *.
  destruct (std_min_value64 min_delay tfinal Hfd Hft ltac:(lra) ltac:(lra))
    as [Hfdelta Hvdelta].
  fold delta in Hfdelta, Hvdelta.
  destruct (steps_guards (value64 min_delay) (value64 tfinal) Hf Hd)
    as (Hs1 & Hdpos & Hdle & _ & Hlt & Hge).
  fold steps in Hs1, Hlt, Hge.
  rewrite <- Hvdelta in Hdpos, Hdle, Hlt, Hge.
  pose proof (guard_value64 delta tfinal steps Hft ltac:(lra) ltac:(lra) Hex)
    as Hguard.
  unfold run in Hrun. fold delta in Hrun.
  apply run_loop_returns in Hrun as (m & _ & Hmlt & Hmge & Hres).
  assert (Hm : m = steps).
  { destruct (lt_eq_lt_dec m steps) as [[Hlo| ->]|Hhi]; [|reflexivity|].
    - rewrite Hguard in Hmge by lia. apply Qltb_ge in Hmge.
      pose proof (Hlt m Hlo). lra.
    - pose proof (Hmlt steps Hhi) as Hs. rewrite Hguard in Hs by lia.
      apply Qltb_lt in Hs. lra. }
  subst m. clear Hmlt Hmge.
  assert (Ht : t = t_at delta steps).
  { exact (f_equal fst Hres). }
  assert (Htr : tr = concat ((fun j => epoch_calls n dt
                                         (epoch_end tfinal delta j))
                             <$> seq 0 steps)).
  { exact (f_equal snd Hres). }
  clear Hres. subst t tr.
  rewrite advance_targets_epochs by assumption.
  destruct (t_at_value64 delta steps Hex steps (le_n _)) as [_ Hvt].
  assert (Hend : forall j, j < steps ->
            let e := epoch_end tfinal delta j in
            (value64 e <= value64 tfinal)%Q
            /\ (value64 e <= inject_Z (Z.of_nat (S j)) * value64 delta)%Q
            /\ ((inject_Z (Z.of_nat (S j)) * value64 delta <= value64 tfinal)%Q ->
                (value64 e == inject_Z (Z.of_nat (S j)) * value64 delta)%Q)
            /\ ((value64 tfinal <= inject_Z (Z.of_nat (S j)) * value64 delta)%Q ->
                (value64 e == value64 tfinal)%Q)).
  { intros j Hj e.
    assert (Hexj : forall k, k <= j -> exact_add (t_at delta k) delta).
    { intros k Hk. apply Hex. lia. }
    destruct (epoch_end_value64 delta tfinal j Hft ltac:(lra) ltac:(lra) Hexj)
      as [He Hsum].
    fold e in He.
    destruct (CommunicatorFacts.std_min_Q
                (value64 (t_at delta j + delta)) (value64 tfinal))
      as (Hcase & Hle1 & Hle2).
    rewrite <- He in Hcase, Hle1, Hle2. clearbody e.
    assert (Hcase' : (value64 e == value64 (t_at delta j + delta))%Q
                     \/ (value64 e == value64 tfinal)%Q).
    { destruct Hcase as [->| ->]; [by left|by right]. }
    rewrite <- Hsum.
    split; [lra|]. split; [lra|]. split; intros Hcmp; destruct Hcase'; lra. }
  split; [|split; [|split; [|split]]].
  - rewrite Hvt. exact Hge.
  - rewrite Hvt. destruct steps as [|m'] eqn:Hst; [lia|].
    pose proof (Hlt m' ltac:(lia)). rewrite scaled_succ. lra.
  - apply Forall_fmap, Forall_forall. intros j Hj. cbn.
    apply elem_of_seq in Hj as [_ Hj].
    destruct (Hend j ltac:(lia)) as (H1 & H2 & H3 & H4).
    split; [|exact H1].
    destruct (Qlt_le_dec (value64 tfinal)
                (inject_Z (Z.of_nat (S j)) * value64 delta)) as [Hbig|Hsmall].
    + rewrite H4 by lra. exact Hf.
    + rewrite H3 by exact Hsmall. rewrite scaled_succ.
      pose proof (scaled_nonneg j (value64 delta) ltac:(lra)). lra.
  - intros k a b Ha Hb. rewrite list_lookup_fmap in Ha, Hb.
    destruct (seq 0 steps !! k) as [j|] eqn:Hk; [|discriminate].
    destruct (seq 0 steps !! S k) as [j'|] eqn:Hk'; [|discriminate].
    apply lookup_seq in Hk as [-> _]. apply lookup_seq in Hk' as [-> Hlt'].
    cbn in Ha, Hb.
    assert (Ha' : a = epoch_end tfinal delta k) by congruence.
    assert (Hb' : b = epoch_end tfinal delta (S k)) by congruence.
    subst a b. clear Ha Hb.
    destruct (Hend k ltac:(lia)) as (_ & _ & H3 & _).
    destruct (Hend (S k) Hlt') as (_ & H2' & H3' & H4').
    pose proof (Hlt (S k) Hlt') as Hg.
    rewrite H3 by lra.
    pose proof (scaled_succ (value64 delta) (S k)) as Hs.
    destruct (Qlt_le_dec (value64 tfinal)
                (inject_Z (Z.of_nat (S (S k))) * value64 delta))
      as [Hbig|Hsmall].
    + rewrite H4' by lra. split; lra.
    + rewrite H3' by exact Hsmall. split; lra.
  - destruct steps as [|m'] eqn:Hst; [lia|].
    rewrite fmap_last, seq_S, last_snoc.
    eexists. split; [reflexivity|]. cbn [Nat.add].
    destruct (Hend m' ltac:(lia)) as (_ & _ & _ & H4). apply H4. exact Hge.
Qed.

Lemma exact_advance_targets_increase_to_tfinal_witness :
  finite64 3.5 = true /\ finite64 1.5 = true
  /\ (0 < value64 3.5)%Q /\ (0 < value64 1.5)%Q
  /\ (forall j, j < 3 ->
        exact_add (t_at (std_min 1.5 3.5)%float j) (std_min 1.5 3.5)%float)
  /\ exists t tr,
       run 3 2 1.5%float 3.5%float 0.125%float = Some (t, tr)
       /\ advance_targets 1 tr = [1.5; 3; 3.5]%float
       /\ (value64 3.5 <= value64 t)%Q
       /\ (value64 t < value64 3.5 + value64 1.5)%Q
       /\ exists e, last (advance_targets 1 tr) = Some e
                    /\ (value64 e == value64 3.5)%Q.
Proof.
  assert (Hex : forall j, j < 3 ->
            exact_add (t_at (std_min 1.5 3.5)%float j)
                      (std_min 1.5 3.5)%float).
  { intros j Hj. destruct j as [|[|[|j]]]; [| | |lia];
      (split; [vm_compute; reflexivity|vm_compute; reflexivity]). }
  split; [reflexivity|]. split; [reflexivity|].
  split; [reflexivity|]. split; [reflexivity|].
  split; [exact Hex|].
  destruct (run 3 2 1.5%float 3.5%float 0.125%float) as [[t tr]|] eqn:Hrun;
    [|vm_compute in Hrun; discriminate Hrun].
  exists t, tr. split; [reflexivity|].
  destruct (exact_advance_targets_increase_to_tfinal 3 2 1 1.5%float 3.5%float
              0.125%float t tr eq_refl eq_refl eq_refl eq_refl Hex
              ltac:(lia) Hrun)
    as (H1 & H2 & _ & _ & H5).
  split; [|split; [exact H1|split; [exact H2|exact H5]]].
  assert (Hadv : match run 3 2 1.5%float 3.5%float 0.125%float with
                 | Some (_, x) => advance_targets 1 x
                 | None => []
                 end = advance_targets 1 tr).
  { rewrite Hrun. reflexivity. }
  rewrite <- Hadv. vm_compute. reflexivity.
Defined.

End Binary64Facts.

(* ================================================================== *)
(** * Properties of the initial spikes *)

Module SeedingFacts.
Import Seeding.

Lemma round_up_20_spec (first : N) :
  (first + 20 <= 2 ^ 32)%N ->
  (round_up_20 first mod 20 = 0
   /\ first <= round_up_20 first < first + 20)%N.
Proof.
  intros Hw. unfold round_up_20.
  destruct (N.eqb_spec (first mod 20) 0); cbn [negb].
  - split; [assumption|lia].
  - rewrite NetworkFacts.wrap32_small by euclid. split; euclid.
Qed.

(** Number of iterations of the loop from [i]. *)
Lemma seed_loop_spec (last : N) :
  (last + 20 <= 2 ^ 32)%N ->
  forall (cnt fuel : nat) (i : N) (added : list spike),
    cnt = N.to_nat ((last + 19 - i) / 20) ->
    cnt <= fuel ->
    seed_loop fuel i last added
    = Some (added
            ++ ((fun k => {| spike_source := i + 20 * N.of_nat k;
                             spike_time := 0 |}) <$> seq 0 cnt)).
Proof.
  intros Hw.
  induction cnt as [|cnt IH]; intros fuel i added Hcnt Hfuel.
  - assert (Hge : (last <= i)%N) by euclid.
    destruct fuel; cbn; destruct (N.ltb_spec i last); try lia;
      by rewrite app_nil_r.
  - assert (Hlt : (i < last)%N) by euclid.
    destruct fuel as [|fuel]; [lia|]. cbn [seed_loop].
    destruct (N.ltb_spec i last); [|lia].
    rewrite (NetworkFacts.wrap32_small (i + 20)) by lia.
    rewrite (IH fuel (i + 20)%N); [| euclid | lia].
    rewrite <- app_assoc. do 2 f_equal. cbn [seq fmap list_fmap app].
    rewrite <- fmap_S_seq, <- list_fmap_compose.
    change (N.of_nat 0) with 0%N. rewrite N.mul_0_r, N.add_0_r.
    f_equal. apply list_fmap_ext. intros _ k _. cbn. f_equal. lia.
Qed.

(** X11. [main] seeds exactly the multiples of 20 in the domain's gid
    range, provided the range is not within 20 of the end of the 32-bit
    gid type ([gid_first <= gid_next <= 2^32 - 20], so that neither the
    rounding up nor [i+=20] wraps): with enough fuel the loop returns; a
    spike is added iff its source is a multiple of 20 with
    [gid_first <= source < gid_next] and its time is 0; no spike is added
    twice. *)
Theorem seeded_spikes_are_local_multiples_of_20 (gid_first gid_next : N)
    (extra : nat) :
  (gid_first <= gid_next)%N -> (gid_next + 20 <= 2 ^ 32)%N ->
  exists added,
    seed_spikes (N.to_nat (gid_next / 20) + 1 + extra) gid_first gid_next
    = Some added
    /\ (forall s, s ∈ added
                  <-> (gid_first <= spike_source s < gid_next)%N
                      /\ (spike_source s mod 20 = 0)%N
                      /\ spike_time s = 0%Q)
    /\ NoDup added.
Proof.
  intros Hle Hw.
  unfold seed_spikes.
  destruct (round_up_20_spec gid_first ltac:(lia)) as [Hmod Hrange].
  set (first := round_up_20 gid_first) in *. clearbody first.
  set (cnt := N.to_nat ((gid_next + 19 - first) / 20)).
  eexists. split.
  - apply (seed_loop_spec gid_next Hw cnt); [reflexivity|]. unfold cnt. euclid.
  - cbn [app]. split.
    + intros [src time]. rewrite list_elem_of_fmap. cbn. split.
      * intros (k & Heq & Hk). injection Heq as -> ->.
        apply elem_of_seq in Hk as [_ Hk]. unfold cnt in Hk.
        split; [|split; [|reflexivity]]; euclid.
      * intros (Hsrc & Hm & ->).
        exists (N.to_nat ((src - first) / 20)). split.
        -- f_equal. euclid.
        -- apply elem_of_seq. unfold cnt. split; [apply Nat.le_0_l|]. euclid.
    + apply NoDup_fmap_2; [|apply NoDup_seq].
      intros k1 k2 Heq. injection Heq as Heq.
      apply N.add_cancel_l, N.mul_cancel_l in Heq; lia.
Qed.

Lemma seeded_spikes_are_local_multiples_of_20_witness :
  (30 <= 90)%N /\ (90 + 20 <= 2 ^ 32)%N
  /\ exists added,
       seed_spikes 5 30 90 = Some added
       /\ (forall s, s ∈ added
                     <-> (30 <= spike_source s < 90)%N
                         /\ (spike_source s mod 20 = 0)%N
                         /\ spike_time s = 0%Q)
       /\ NoDup added.
Proof.
  assert (H1 : (30 <= 90)%N) by lia.
  assert (H2 : (90 + 20 <= 2 ^ 32)%N) by (vm_compute; discriminate).
  split; [exact H1|]. split; [exact H2|].
  exact (seeded_spikes_are_local_multiples_of_20 30 90 0 H1 H2).
Defined.

(** Within 20 of [2^32] the rounding up wraps: from
    [gid_first = 2^32 - 15] the loop starts at 4, which is below
    [gid_next = 2^32 - 6], and goes on seeding from there. *)
Lemma round_up_20_wraps :
  round_up_20 4294967281 = 4%N
  /\ seed_spikes 3 4294967281 4294967290 = None.
Proof. vm_compute. split; reflexivity. Qed.

End SeedingFacts.

(* ================================================================== *)
(** * Properties of traces and samplers *)

Module TracesFacts.
Import Driver Traces.

Section Generic.
Context {T : Type} `{TimeOps T}.

Lemma sample_Some (traces traces' : list (trace_data T))
    (f f' : simple_sampler_functor T) (t v r : T) :
  sample traces f t v = Some (traces', f', r) ->
  exists tr,
    traces !! trace_index_ f = Some tr
    /\ traces' = <[trace_index_ f :=
                    {| name := name tr; units := units tr; id := id tr;
                       samples := samples tr
                                  ++ [{| time := t; value := v |}] |}]> traces
    /\ f' = {| trace_index_ := trace_index_ f;
               requested_sample_time_ :=
                 t_add (requested_sample_time_ f) (dt_ f);
               dt_ := dt_ f |}
    /\ r = t_add (requested_sample_time_ f) (dt_ f).
Proof.
  unfold sample. destruct (traces !! trace_index_ f) as [tr|]; [|discriminate].
  intros Hs. injection Hs as <- <- <-. by exists tr.
Qed.

(** X12. A sampling call is defined exactly when the functor's index is
    inside [traces]; then it appends the sample [(t, v)] to the trace at
    that index and to no other, keeps the number of traces and the
    header of its own trace, and returns the previous requested time
    plus [dt_], whatever [t] was.  After [reset_traces] no sampler is
    defined any more. *)
Theorem sample_touches_only_its_trace (traces : list (trace_data T))
    (f : simple_sampler_functor T) (t v : T) :
  ((exists res, sample traces f t v = Some res)
   <-> trace_index_ f < length traces)
  /\ (forall traces' f' r,
        sample traces f t v = Some (traces', f', r) ->
        length traces' = length traces
        /\ (forall k, k <> trace_index_ f -> traces' !! k = traces !! k)
        /\ (exists tr tr',
              traces !! trace_index_ f = Some tr
              /\ traces' !! trace_index_ f = Some tr'
              /\ samples tr' = samples tr ++ [{| time := t; value := v |}]
              /\ name tr' = name tr /\ units tr' = units tr
              /\ id tr' = id tr)
        /\ r = t_add (requested_sample_time_ f) (dt_ f)
        /\ requested_sample_time_ f' = r
        /\ trace_index_ f' = trace_index_ f /\ dt_ f' = dt_ f)
  /\ sample (reset_traces traces) f t v = None.
Proof.
  split; [|split; [|reflexivity]].
  - unfold sample. split.
    + intros [res Hres].
      destruct (traces !! trace_index_ f) eqn:Hk; [|discriminate].
      by eapply lookup_lt_Some.
    + intros Hlt. destruct (lookup_lt_is_Some_2 _ _ Hlt) as [tr ->].
      by eexists.
  - intros traces' f' r Hs.
    apply sample_Some in Hs as (tr & Hk & -> & -> & ->).
    pose proof (lookup_lt_Some _ _ _ Hk) as Hlt.
    split; [by rewrite length_insert|]. split.
    + intros k Hne. by rewrite list_lookup_insert_ne.
    + split; [|by repeat split].
      eexists tr, _. split; [exact Hk|].
      split; [by rewrite list_lookup_insert_eq|]. by repeat split.
Qed.

Lemma sample_all_at (pre post : list (trace_data T)) (tr : trace_data T)
    (dt : T) :
  forall (calls : list (T * T)) (requested : T) (recorded : list (sample_type T)),
    sample_all
      (pre ++ {| name := name tr; units := units tr; id := id tr;
                 samples := recorded |} :: post)
      {| trace_index_ := length pre; requested_sample_time_ := requested;
         dt_ := dt |}
      calls
    = Some (pre ++ {| name := name tr; units := units tr; id := id tr;
                      samples := recorded
                                 ++ ((fun c => {| time := fst c;
                                                  value := snd c |})
                                     <$> calls) |} :: post,
            {| trace_index_ := length pre;
               requested_sample_time_ := t_after dt (length calls) requested;
               dt_ := dt |},
            (fun k => t_after dt (S k) requested) <$> seq 0 (length calls)).
Proof.
  induction calls as [|[t v] calls IH]; intros requested recorded.
  - cbn. by rewrite app_nil_r.
  - cbn [sample_all]. unfold sample. cbn [trace_index_].
    rewrite list_lookup_middle by reflexivity.
    cbn [name units id samples requested_sample_time_ dt_].
    rewrite insert_app_r_alt, Nat.sub_diag by lia. cbn [insert list_insert].
    rewrite IH. cbn [length seq fmap list_fmap t_after fst snd].
    rewrite <- app_assoc, <- fmap_S_seq, <- list_fmap_compose. reflexivity.
Qed.

(** X13. A sampler made by [make_simple_sampler] owns the new, last
    trace: after any sequence of sampling calls on it, that trace holds
    exactly the samples passed, in call order, under the name, units and
    gid given at creation; the traces that existed before are unchanged;
    and the [k]-th call returned the sum of [k] copies of [dt]. *)
Theorem fresh_sampler_records_calls (traces : list (trace_data T))
    (probe : cell_member_type) (nm un : string) (dt : T)
    (calls : list (T * T)) :
  sample_all (fst (make_simple_sampler traces probe nm un dt))
    (functor (snd (make_simple_sampler traces probe nm un dt))) calls
  = Some (traces
          ++ [{| name := nm; units := un; id := gid probe;
                 samples := (fun c => {| time := fst c; value := snd c |})
                            <$> calls |}],
          {| trace_index_ := length traces;
             requested_sample_time_ := t_after dt (length calls) t_zero;
             dt_ := dt |},
          (fun k => t_after dt (S k) t_zero) <$> seq 0 (length calls)).
Proof.
  unfold make_simple_sampler. cbn [fst snd functor].
  rewrite length_app. cbn [length].
  replace (length traces + 1 - 1) with (length traces) by lia.
  exact (sample_all_at traces []
           {| name := nm; units := un; id := gid probe; samples := [] |}
           dt calls t_zero []).
Qed.

Lemma install_probes_for_local (is_local_group : N -> bool)
    (group_lid first : N -> N) (sample_dt : T)
    (traces : list (trace_data T)) (installed : list (N * sampler T))
    (g : N) :
  is_local_group g = true ->
  install_probes_for is_local_group group_lid first sample_dt
    (traces, installed) g
  = (traces
     ++ [ {| name := "vsoma"; units := "mV"; id := g; samples := [] |};
          {| name := "vdend"; units := "mV"; id := g; samples := [] |};
          {| name := "idend"; units := "mA/cm²"; id := g; samples := [] |} ],
     installed
     ++ [ (group_lid g,
           {| probe_id := {| gid := g; index := first (group_lid g) |};
              functor := {| trace_index_ := length traces;
                            requested_sample_time_ := t_zero;
                            dt_ := sample_dt |} |});
          (group_lid g,
           {| probe_id := {| gid := g; index := (first (group_lid g) + 1)%N |};
              functor := {| trace_index_ := length traces + 1;
                            requested_sample_time_ := t_zero;
                            dt_ := sample_dt |} |});
          (group_lid g,
           {| probe_id := {| gid := g; index := (first (group_lid g) + 2)%N |};
              functor := {| trace_index_ := length traces + 2;
                            requested_sample_time_ := t_zero;
                            dt_ := sample_dt |} |}) ]).
Proof.
  intros Hlocal. unfold install_probes_for, make_simple_sampler.
  rewrite Hlocal. cbn [negb index gid].
  rewrite <- !app_assoc. cbn [app]. rewrite !length_app. cbn [length].
  repeat f_equal; lia.
Qed.

Lemma install_probes_over_inv (is_local_group : N -> bool)
    (group_lid first : N -> N) (sample_dt : T)
    (traces0 : list (trace_data T)) (gids : list N) :
  forall (new : list (trace_data T)) (installed : list (N * sampler T)),
    length new = length installed ->
    (forall j lid s, installed !! j = Some (lid, s) ->
       trace_index_ (functor s) = length traces0 + j
       /\ lid = group_lid (gid (probe_id s))
       /\ index (probe_id s) = (first lid + N.of_nat (j mod 3))%N
       /\ exists tr, new !! j = Some tr
                     /\ id tr = gid (probe_id s) /\ samples tr = []) ->
    length installed mod 3 = 0 ->
    exists new' installed',
      install_probes_over gids is_local_group group_lid first sample_dt
        (traces0 ++ new, installed)
      = (traces0 ++ new', installed')
      /\ length new' = length installed'
      /\ (gid ∘ probe_id ∘ snd) <$> installed'
         = ((gid ∘ probe_id ∘ snd) <$> installed)
           ++ (gids ≫= fun g => if is_local_group g then [g; g; g] else [])
      /\ (forall j lid s, installed' !! j = Some (lid, s) ->
            trace_index_ (functor s) = length traces0 + j
            /\ lid = group_lid (gid (probe_id s))
            /\ index (probe_id s) = (first lid + N.of_nat (j mod 3))%N
            /\ exists tr, new' !! j = Some tr
                          /\ id tr = gid (probe_id s) /\ samples tr = []).
Proof.
  induction gids as [|g gids IH]; intros new installed Hlen Hinv Hmod.
  - exists new, installed. split; [reflexivity|]. split; [exact Hlen|].
    split; [|exact Hinv]. cbn [mbind list_bind]. by rewrite app_nil_r.
  - unfold install_probes_over. cbn [foldl].
    destruct (is_local_group g) eqn:Hlocal.
    + rewrite install_probes_for_local by assumption.
      rewrite <- app_assoc.
      match goal with
      | |- context [foldl _ (traces0 ++ ?n, ?i) gids] =>
          destruct (IH n i) as (new' & installed' & Hrun & Hlen' & Hg & Hinv')
      end.
      * rewrite !length_app. cbn. lia.
      * intros j lid s Hj. rewrite length_app, Hlen in *.
        apply lookup_app_Some in Hj as [Hj|[Hge Hj]].
        -- destruct (Hinv j lid s Hj) as (H1 & H2 & H3 & tr & H4 & H5 & H6).
           split; [exact H1|]. split; [exact H2|]. split; [exact H3|].
           exists tr. split; [|by split]. by apply lookup_app_l_Some.
        -- assert (Hj3 : forall d, d < 3 ->
                     (length installed + d) mod 3 = d).
           { intros d Hd. rewrite Nat.Div0.add_mod, Hmod. cbn [Nat.add].
             rewrite Nat.Div0.mod_mod. by apply Nat.mod_small. }
           destruct (j - length installed) as [|[|[|d]]] eqn:Hd;
             cbn in Hj; [| | |discriminate]; injection Hj as <- <-;
             cbn [functor trace_index_ probe_id gid index];
             [ assert (j = length installed + 0) as -> by lia
             | assert (j = length installed + 1) as -> by lia
             | assert (j = length installed + 2) as -> by lia ];
             rewrite Hj3 by lia; (split; [lia|]); (split; [reflexivity|]);
             (split; [lia|]); eexists;
             (split; [rewrite lookup_app_r by lia|]).
           ++ replace (length installed + 0 - length new) with 0 by lia.
              reflexivity.
           ++ by split.
           ++ replace (length installed + 1 - length new) with 1 by lia.
              reflexivity.
           ++ by split.
           ++ replace (length installed + 2 - length new) with 2 by lia.
              reflexivity.
           ++ by split.
      * rewrite length_app. cbn [length]. rewrite Nat.Div0.add_mod, Hmod.
        reflexivity.
      * exists new', installed'. split; [exact Hrun|]. split; [exact Hlen'|].
        split; [|exact Hinv']. rewrite Hg, fmap_app. cbn [mbind list_bind].
        rewrite Hlocal, <- app_assoc. reflexivity.
    + unfold install_probes_for at 2. rewrite Hlocal. cbn [negb].
      destruct (IH new installed Hlen Hinv Hmod)
        as (new' & installed' & Hrun & Hlen' & Hg & Hinv').
      exists new', installed'. split; [exact Hrun|]. split; [exact Hlen'|].
      split; [|exact Hinv']. rewrite Hg. cbn [mbind list_bind].
      by rewrite Hlocal.
Qed.

(** X14. The probe section of [all_to_all_model] installs three samplers
    for each monitored gid (0, 1, 2) that is local and none for the
    others.  It only appends to [traces]; the [j]-th installed sampler
    goes to the group [group_lid(gid)], probes index
    [probe_gid_range().first + j mod 3], and writes to a trace of its
    own, the [j]-th appended one, which starts empty and carries the
    sampler's gid. *)
Theorem probes_installed (is_local_group : N -> bool)
    (group_lid probe_gid_range_first : N -> N) (sample_dt : T)
    (traces0 : list (trace_data T)) :
  exists new installed,
    install_probes is_local_group group_lid probe_gid_range_first sample_dt
      traces0
    = (traces0 ++ new, installed)
    /\ length new = length installed
    /\ (gid ∘ probe_id ∘ snd) <$> installed
       = (monitor_group_gids
            ≫= fun g => if is_local_group g then [g; g; g] else [])
    /\ (forall j lid s, installed !! j = Some (lid, s) ->
          trace_index_ (functor s) = length traces0 + j
          /\ lid = group_lid (gid (probe_id s))
          /\ index (probe_id s)
             = (probe_gid_range_first lid + N.of_nat (j mod 3))%N
          /\ exists tr,
               (traces0 ++ new) !! (length traces0 + j) = Some tr
               /\ id tr = gid (probe_id s) /\ samples tr = []).
Proof.
  unfold install_probes.
  destruct (install_probes_over_inv is_local_group group_lid
              probe_gid_range_first sample_dt traces0 monitor_group_gids
              [] [])
    as (new & installed & Hrun & Hlen & Hg & Hinv).
  - reflexivity.
  - intros j lid s Hj. discriminate.
  - reflexivity.
  - exists new, installed. rewrite app_nil_r in Hrun.
    split; [exact Hrun|]. split; [exact Hlen|]. split; [exact Hg|].
    intros j lid s Hj.
    destruct (Hinv j lid s Hj) as (H1 & H2 & H3 & tr & H4 & H5 & H6).
    split; [exact H1|]. split; [exact H2|]. split; [exact H3|].
    exists tr. split; [|by split].
    rewrite lookup_app_r by lia.
    by replace (length traces0 + j - length traces0) with j by lia.
Qed.

End Generic.

End TracesFacts.

(* ================================================================== *)
(** * Sources of the connections built by [all_to_all_model] *)

Module SourceFacts.
Import Communicator Miniapp NetworkFacts.

(** The source of the [k]-th connection of cell [gid] in all-to-all
    mode: the candidates 0, 1, 2, ... with [gid] left out. *)
Lemma kth_source_cases (gid k : N) :
  (if (k <? gid)%N then k else (k + 1)%N) <> gid.
Proof. destruct (N.ltb_spec k gid); lia. Qed.

Section AllToAll.
Context {engine : Type}.
Variable uniform_int_distribution : N -> N -> engine -> N * engine.
Variable exponential_distribution : Q -> engine -> Q * engine.
Variable opt : cl_options.

Hypothesis is_all_to_all : all_to_all opt = true.
Hypothesis synapses_fit : (synapses_per_cell opt + 1 < 2 ^ 32)%N.

Lemma all_to_all_loop_sources (fuel : nat) :
  forall gid i cells_added target gen added res,
    (cells_added <= synapses_per_cell opt)%N ->
    (i = cells_added /\ (i <= gid)%N)
    \/ (i = (cells_added + 1)%N /\ (gid < i)%N) ->
    add_synapses uniform_int_distribution exponential_distribution opt
      fuel gid i cells_added target gen added = Some res ->
    source <$> res
    = (source <$> added)
      ++ ((fun k => if (k <? gid)%N then k else (k + 1)%N)
          <$> (N.of_nat
               <$> seq (N.to_nat cells_added)
                     (N.to_nat (synapses_per_cell opt - cells_added)))).
Proof using is_all_to_all synapses_fit.
  induction fuel as [|fuel IH];
    intros gid i cells_added target gen added res Hle Hcase Hres.
  - cbn in Hres.
    destruct (N.ltb_spec cells_added (synapses_per_cell opt)); [discriminate|].
    injection Hres as <-.
    replace (synapses_per_cell opt - cells_added)%N with 0%N by lia.
    cbn. by rewrite app_nil_r.
  - cbn [add_synapses] in Hres.
    destruct (N.ltb_spec cells_added (synapses_per_cell opt)) as [Hlt|Hge].
    + rewrite is_all_to_all in Hres.
      rewrite (wrap32_small (cells_added + 1)) in Hres by lia.
      rewrite (wrap32_small (i + 1)) in Hres by lia.
      destruct (N.eqb_spec gid i) as [Heq|Hne]; cbn [negb] in Hres.
      * apply IH in Hres; [exact Hres|lia|]. right. lia.
      * destruct (weight_distribution exponential_distribution gen)
          as [w gen2].
        apply IH in Hres; [|lia|lia].
        rewrite Hres, fmap_app, <- app_assoc. f_equal. cbn [fmap list_fmap app source].
        replace (N.to_nat (synapses_per_cell opt - cells_added))
          with (S (N.to_nat (synapses_per_cell opt - (cells_added + 1))))
          by lia.
        replace (N.to_nat (cells_added + 1)) with (S (N.to_nat cells_added))
          by lia.
        cbn [seq fmap list_fmap]. f_equal.
        rewrite N2Nat.id.
        destruct Hcase as [[-> Hi]|[-> Hi]];
          destruct (N.ltb_spec cells_added gid); lia.
    + injection Hres as <-.
      replace (synapses_per_cell opt - cells_added)%N with 0%N by lia.
      cbn. by rewrite app_nil_r.
Qed.

End AllToAll.

(** X15. In all-to-all mode (with [synapses_per_cell + 1 < 2^32]) the
    loop for a cell completes and the sources of its connections are, in
    order, the candidates 0, 1, 2, ... with the cell's own gid left out.
    With [synapses_per_cell = cells - 1] these are exactly the other
    cells of the network; with [synapses_per_cell >= cells] some
    connection names a source that is not a cell of the network. *)
Theorem all_to_all_sources {engine : Type}
    (mt19937 : N -> engine)
    (uniform_int_distribution : N -> N -> engine -> N * engine)
    (exponential_distribution : Q -> engine -> Q * engine)
    (opt : cl_options)
    (target_gid_from_group_lid group_gid_from_group_lid : N -> N) (lid : N) :
  all_to_all opt = true ->
  (synapses_per_cell opt + 1 < 2 ^ 32)%N ->
  exists cons,
    connections_of_cell mt19937 uniform_int_distribution
      exponential_distribution opt (N.to_nat (synapses_per_cell opt) + 1)
      target_gid_from_group_lid group_gid_from_group_lid lid = Some cons
    /\ source <$> cons
       = (fun k => if (k <? group_gid_from_group_lid lid)%N
                   then k else (k + 1)%N)
         <$> (N.of_nat <$> seq 0 (N.to_nat (synapses_per_cell opt)))
    /\ ((synapses_per_cell opt + 1 = cells opt)%N ->
        (group_gid_from_group_lid lid < cells opt)%N ->
        forall s, s ∈ source <$> cons
                  <-> (s < cells opt)%N /\ s <> group_gid_from_group_lid lid)
    /\ ((cells opt <= synapses_per_cell opt)%N ->
        (group_gid_from_group_lid lid < cells opt)%N ->
        exists con, con ∈ cons /\ (cells opt <= source con)%N).
Proof.
  intros Hall Hfit. unfold connections_of_cell.
  set (gid := group_gid_from_group_lid lid).
  destruct (all_to_all_loop_completes uniform_int_distribution
              exponential_distribution opt Hall Hfit
              (N.to_nat (synapses_per_cell opt) + 1) gid 0%N 0%N
              (target_gid_from_group_lid lid) (mt19937 gid) [])
    as [cons Hrun]; [lia|left; lia|].
  exists cons. split; [exact Hrun|].
  apply (all_to_all_loop_sources uniform_int_distribution
           exponential_distribution opt Hall Hfit) in Hrun as Hsrc;
    [|lia|left; lia].
  cbn [fmap list_fmap app] in Hsrc. rewrite N.sub_0_r in Hsrc.
  change (N.to_nat 0) with 0 in Hsrc.
  split; [exact Hsrc|].
  assert (Hmem : forall s,
            s ∈ source <$> cons
            <-> exists k, (k < synapses_per_cell opt)%N
                          /\ s = if (k <? gid)%N then k else (k + 1)%N).
  { intros s. rewrite Hsrc, <- list_fmap_compose, list_elem_of_fmap. split.
    - intros (j & -> & Hj). apply elem_of_seq in Hj as [_ Hj].
      exists (N.of_nat j). split; [lia|reflexivity].
    - intros (k & Hk & ->). exists (N.to_nat k). cbn. rewrite N2Nat.id.
      split; [reflexivity|]. apply elem_of_seq. lia. }
  split.
  - intros Hspc Hgid s. rewrite Hmem. split.
    + intros (k & Hk & ->). destruct (N.ltb_spec k gid); lia.
    + intros [Hs Hne]. destruct (N.lt_ge_cases s gid) as [Hlt|Hge].
      * exists s. split; [lia|]. destruct (N.ltb_spec s gid); lia.
      * exists (s - 1)%N. split; [lia|].
        destruct (N.ltb_spec (s - 1) gid); lia.
  - intros Hspc Hgid.
    assert (Hin : synapses_per_cell opt ∈ source <$> cons).
    { apply Hmem. exists (synapses_per_cell opt - 1)%N. split; [lia|].
      destruct (N.ltb_spec (synapses_per_cell opt - 1) gid); lia. }
    apply list_elem_of_fmap in Hin as (con & Hs & Hcon).
    exists con. split; [exact Hcon|]. lia.
Qed.

Lemma all_to_all_sources_witness :
  (2 + 1 < 2 ^ 32)%N
  /\ exists cons,
       connections_of_cell (fun _ => tt) lower_bound_uniform zero_exponential
         all_to_all_options 3 (fun lid => (2 * lid)%N) (fun lid => lid) 1
       = Some cons
       /\ source <$> cons = [0; 2]%N.
Proof.
  split; [reflexivity|].
  destruct (all_to_all_sources (fun _ => tt) lower_bound_uniform
              zero_exponential all_to_all_options (fun lid => (2 * lid)%N)
              (fun lid => lid) 1 eq_refl eq_refl)
    as (cons & Hrun & Hsrc & _).
  exists cons. split; [exact Hrun|exact Hsrc].
Defined.

Section Random.
Context {engine : Type}.
Variable uniform_int_distribution : N -> N -> engine -> N * engine.
Variable exponential_distribution : Q -> engine -> Q * engine.
Variable opt : cl_options.

Hypothesis is_random : all_to_all opt = false.
Hypothesis cells_fit : (1 <= cells opt < 2 ^ 32)%N.
Hypothesis uniform_range : forall a b g,
  (a <= b)%N -> (a <= fst (uniform_int_distribution a b g) <= b)%N.

Lemma random_loop_sources (fuel : nat) :
  forall gid i cells_added target gen added res,
    Forall (fun con => (source con < cells opt)%N /\ source con <> gid) added ->
    add_synapses uniform_int_distribution exponential_distribution opt
      fuel gid i cells_added target gen added = Some res ->
    Forall (fun con => (source con < cells opt)%N /\ source con <> gid) res.
Proof using is_random cells_fit uniform_range.
  induction fuel as [|fuel IH];
    intros gid i cells_added target gen added res Hadded Hres.
  - cbn in Hres. destruct (cells_added <? synapses_per_cell opt)%N;
      [discriminate|]. by injection Hres as <-.
  - cbn [add_synapses] in Hres.
    destruct (cells_added <? synapses_per_cell opt)%N;
      [|by injection Hres as <-].
    rewrite is_random in Hres. unfold source_distribution in Hres.
    assert (Hw : wrap32 (cells opt + 2 ^ 32 - 1) = (cells opt - 1)%N).
    { unfold wrap32.
      replace (cells opt + 2 ^ 32 - 1)%N
        with (cells opt - 1 + 1 * 2 ^ 32)%N by lia.
      rewrite N.Div0.mod_add. apply N.mod_small. lia. }
    rewrite Hw in Hres.
    pose proof (uniform_range 0 (cells opt - 1) gen ltac:(lia)) as Hr.
    destruct (uniform_int_distribution 0 (cells opt - 1) gen)
      as [src gen1].
    cbn [fst] in Hr.
    destruct (N.eqb_spec gid src) as [Heq|Hne]; cbn [negb] in Hres.
    + by eapply IH.
    + destruct (weight_distribution exponential_distribution gen1)
        as [w gen2].
      eapply IH; [|exact Hres]. apply Forall_app. split; [exact Hadded|].
      repeat constructor; cbn; [lia|congruence].
Qed.

End Random.

(** X16. With random sources (and [1 <= cells < 2^32]) every connection
    the loop has added for a cell, whenever it completes, comes from a
    cell of the network, [source < cells], other than the cell itself. *)
Theorem random_sources_are_other_cells {engine : Type}
    (mt19937 : N -> engine)
    (uniform_int_distribution : N -> N -> engine -> N * engine)
    (exponential_distribution : Q -> engine -> Q * engine)
    (opt : cl_options)
    (target_gid_from_group_lid group_gid_from_group_lid : N -> N) (lid : N)
    (fuel : nat) (cons : list connection) :
  (forall a b g, (a <= b)%N ->
     (a <= fst (uniform_int_distribution a b g) <= b)%N) ->
  all_to_all opt = false ->
  (1 <= cells opt < 2 ^ 32)%N ->
  connections_of_cell mt19937 uniform_int_distribution
    exponential_distribution opt fuel
    target_gid_from_group_lid group_gid_from_group_lid lid = Some cons ->
  Forall (fun con => (source con < cells opt)%N
                     /\ source con <> group_gid_from_group_lid lid) cons.
Proof.
  intros Hrange Hrandom Hcells Hrun. unfold connections_of_cell in Hrun.
  eapply random_loop_sources; [exact Hrandom|exact Hcells|exact Hrange| |
                               exact Hrun].
  constructor.
Qed.

Lemma random_sources_are_other_cells_witness :
  (forall a b g, (a <= b)%N -> (a <= fst (lower_bound_uniform a b g) <= b)%N)
  /\ (1 <= cells random_options < 2 ^ 32)%N
  /\ connections_of_cell (fun _ => tt) lower_bound_uniform zero_exponential
       random_options 2 (fun lid => (2 * lid)%N) (fun lid => lid) 1
     = Some random_connections
  /\ Forall (fun con => (source con < 2)%N /\ source con <> 1%N)
       random_connections.
Proof.
  assert (Hr : forall a b g, (a <= b)%N ->
                 (a <= fst (lower_bound_uniform a b g) <= b)%N).
  { intros a b g Hab. cbn. lia. }
  assert (Hc : (1 <= cells random_options < 2 ^ 32)%N).
  { cbn. lia. }
  split; [exact Hr|]. split; [exact Hc|]. split; [reflexivity|].
  exact (random_sources_are_other_cells (fun _ => tt) lower_bound_uniform
           zero_exponential random_options (fun lid => (2 * lid)%N)
           (fun lid => lid) 1 2 random_connections Hr eq_refl Hc eq_refl).
Defined.

End SourceFacts.

(* ================================================================== *)
(** * Properties of [make_cell] *)

Module MakeCellFacts.
Import CableCellOps MakeCell.

Section Engine.
Context {engine : Type}.
Variable default_engine : engine.
Variable uniform_real_distribution : Q -> Q -> engine -> Q * engine.

Lemma synapse_segments_app (l1 l2 : list cell_call) :
  synapse_segments (l1 ++ l2) = synapse_segments l1 ++ synapse_segments l2.
Proof.
  induction l1 as [|c l1 IH]; [reflexivity|].
  destruct c; cbn; by rewrite ?IH.
Qed.

Lemma segment_parents_app (l1 l2 : list cell_call) :
  segment_parents (l1 ++ l2) = segment_parents l1 ++ segment_parents l2.
Proof.
  induction l1 as [|c l1 IH]; [reflexivity|].
  destruct c; cbn; by rewrite ?IH.
Qed.

Lemma synapse_calls_segments (syn_type : string) (n : nat) :
  forall (i : nat) (gen : engine),
    synapse_segments
      (synapse_calls uniform_real_distribution n (Z.of_nat i) gen syn_type)
    = (fun k => (2 + N.of_nat (k mod 2))%N) <$> seq i n.
Proof.
  induction n as [|n IH]; intros i gen; [reflexivity|].
  cbn [synapse_calls]. destruct (uniform_real_distribution 0 1 gen) as [pos gen'].
  cbn [synapse_segments loc_segment seq fmap list_fmap]. f_equal.
  - rewrite Z.rem_mod_nonneg by lia.
    change 2%Z with (Z.of_nat 2) at 2. rewrite <- Nat2Z.inj_mod. lia.
  - replace (Z.of_nat i + 1)%Z with (Z.of_nat (S i)) by lia. apply IH.
Qed.

Lemma synapse_calls_parents (syn_type : string) (n : nat) :
  forall (i : Z) (gen : engine),
    segment_parents (synapse_calls uniform_real_distribution n i gen syn_type)
    = [].
Proof.
  induction n as [|n IH]; intros i gen; [reflexivity|].
  cbn [synapse_calls]. destruct (uniform_real_distribution 0 1 gen) as [pos gen'].
  cbn. apply IH.
Qed.

Lemma occurrences_app (x : N) (l1 l2 : list N) :
  occurrences x (l1 ++ l2) = occurrences x l1 + occurrences x l2.
Proof. induction l1 as [|y l1 IH]; cbn; [reflexivity|]. rewrite IH. lia. Qed.

Lemma round_robin_counts (n : nat) :
  occurrences 2 ((fun k => (2 + N.of_nat (k mod 2))%N) <$> seq 0 n)
  = (n + 1) / 2
  /\ occurrences 3 ((fun k => (2 + N.of_nat (k mod 2))%N) <$> seq 0 n)
     = n / 2.
Proof.
  induction n as [|n [IH2 IH3]]; [split; reflexivity|].
  rewrite seq_S, fmap_app, !occurrences_app, IH2, IH3.
  cbn [Nat.add fmap list_fmap occurrences].
  pose proof (Nat.div_mod_eq n 2) as E0.
  pose proof (Nat.div_mod_eq (n + 1) 2) as E1.
  pose proof (Nat.div_mod_eq (S (n + 1)) 2) as E2.
  pose proof (Nat.div_mod_eq (S n) 2) as E3.
  pose proof (Nat.mod_upper_bound n 2 ltac:(lia)) as B0.
  pose proof (Nat.mod_upper_bound (n + 1) 2 ltac:(lia)) as B1.
  pose proof (Nat.mod_upper_bound (S (n + 1)) 2 ltac:(lia)) as B2.
  pose proof (Nat.mod_upper_bound (S n) 2 ltac:(lia)) as B3.
  destruct (n mod 2) as [|[|r]] eqn:Hm; [| |lia].
  - change (2 + N.of_nat 0)%N with 2%N.
    change (2 =? 2)%N with true. change (3 =? 2)%N with false.
    cbv beta iota. split; lia.
  - change (2 + N.of_nat 1)%N with 3%N.
    change (2 =? 3)%N with false. change (3 =? 3)%N with true.
    cbv beta iota. split; lia.
Qed.

(** X17. [make_cell] distributes the synapses round robin over the two
    terminal dendrites: it makes [num_synapses] calls of [add_synapse]
    (none when [num_synapses] is not positive), the [k]-th on segment
    [2 + k mod 2], so segment 2 receives [ceil(n/2)] and segment 3
    [floor(n/2)] of them; segments 2 and 3 are the last two of the four
    segments the function creates, both with parent 1. *)
Theorem make_cell_synapses_round_robin (compartments_per_segment
    num_synapses : Z) (syn_type : string) :
  synapse_segments
    (make_cell default_engine uniform_real_distribution
       compartments_per_segment num_synapses syn_type)
  = (fun k => (2 + N.of_nat (k mod 2))%N) <$> seq 0 (Z.to_nat num_synapses)
  /\ occurrences 2
       (synapse_segments
          (make_cell default_engine uniform_real_distribution
             compartments_per_segment num_synapses syn_type))
     = (Z.to_nat num_synapses + 1) / 2
  /\ occurrences 3
       (synapse_segments
          (make_cell default_engine uniform_real_distribution
             compartments_per_segment num_synapses syn_type))
     = Z.to_nat num_synapses / 2
  /\ segment_parents
       (make_cell default_engine uniform_real_distribution
          compartments_per_segment num_synapses syn_type)
     = [None; Some 0%N; Some 1%N; Some 1%N].
Proof.
  assert (Hseg : synapse_segments
            (make_cell default_engine uniform_real_distribution
               compartments_per_segment num_synapses syn_type)
          = (fun k => (2 + N.of_nat (k mod 2))%N)
            <$> seq 0 (Z.to_nat num_synapses)).
  { unfold make_cell. rewrite !synapse_segments_app.
    rewrite (synapse_calls_segments syn_type _ 0). cbn. by rewrite app_nil_r. }
  split; [exact Hseg|]. rewrite Hseg.
  destruct (round_robin_counts (Z.to_nat num_synapses)) as [H2 H3].
  split; [exact H2|]. split; [exact H3|].
  unfold make_cell. rewrite !segment_parents_app, synapse_calls_parents.
  reflexivity.
Qed.

End Engine.

End MakeCellFacts.
